(** * webm-pub: a live WebM relay

    A shallow embedding of the three Go packages of the relay
    ([webm], [webmkeeper], [pubsub]) and of the HTTP adapter
    ([httppubsub], [main]), followed by the properties the design document
    states about them.

    Conventions of the embedding.
    - A Go [byte] is a [Byte.byte]; [u8] gives its value in [0, 255].
    - A Go [[]byte] is a [list byte]; indexing and slicing out of range
      panic, which the [result] type records as [Panic].
    - A Go [(T, error)] return is a [result T].
    - Methods with a pointer receiver thread the receiver explicitly. *)

From Stdlib Require Import ZArith List Bool Lia.
From Stdlib Require Import Strings.Byte.
From stdpp Require Import base gmap strings list pretty.

Local Open Scope Z_scope.

(** ** Go runtime: errors, results, bytes and slices *)

(** Go [error] values.  [LibError] stands for any error produced by the
    [ebmlstream] library ([io.EOF], a malformed element, a malformed
    varint); [Errorf_impossible_track] is the one error the relay builds
    itself, with [fmt.Errorf]. *)
Inductive goerr : Type :=
| LibError (msg : string)
| Errorf_impossible_track (trackNumber : Z).

Definition Error (e : goerr) : string :=
  match e with
  | LibError msg => msg
  | Errorf_impossible_track n => String.append "impossible track number " (pretty n)
  end.

Definition io_EOF : goerr := LibError "EOF".

Inductive result (A : Type) : Type :=
| Ok (a : A)
| Err (e : goerr)
| Panic.
Arguments Ok {A} a.
Arguments Err {A} e.
Arguments Panic {A}.

Definition rbind {A B} (m : result A) (k : A -> result B) : result B :=
  match m with
  | Ok a => k a
  | Err e => Err e
  | Panic => Panic
  end.

Notation "'do' x <- m ; k" := (rbind m (fun x => k))
  (at level 10, x name, m at level 100, k at level 200).

Definition u8 (b : byte) : Z := Z.of_N (Byte.to_N b).

(** Conversion of an integer to a Go [byte]: the low eight bits. *)
Definition byte_of_Z (z : Z) : byte :=
  match Byte.of_N (Z.to_N (z mod 256)) with
  | Some b => b
  | None => x00
  end.

(** [data[i]] *)
Definition index {A} (data : list A) (i : nat) : result A :=
  match data !! i with
  | Some x => Ok x
  | None => Panic
  end.

(** [data[n:]] *)
Definition slice_from {A} (data : list A) (n : Z) : result (list A) :=
  if (n <? 0) || (Z.of_nat (length data) <? n) then Panic
  else Ok (drop (Z.to_nat n) data).

(** [make([]byte, n)] *)
Definition make (n : Z) : result (list byte) :=
  if n <? 0 then Panic else Ok (replicate (Z.to_nat n) x00).

(** [copy(dst, src)], returning the new contents of [dst]. *)
Definition copy {A} (dst src : list A) : list A :=
  take (length dst) src ++ drop (length src) dst.

(** [int16(x)] for an integer [x]: two's complement on sixteen bits. *)
Definition int16 (z : Z) : Z := (z + 32768) mod 65536 - 32768.

(** A [for i := byte(0); i < n; i++] loop whose body threads a state and
    may fail. *)
Fixpoint for_n {S} (n : nat) (body : S -> result S) (s : S) : result S :=
  match n with
  | O => Ok s
  | S n' => do s' <- body s; for_n n' body s'
  end.

(** ** The [ebmlstream] library, as the relay sees it *)

Module varint.
(** Modelled from the spec: the [varint] package of [ebmlstream] is not part
    of the repository; the decoder uses [varint.Parse], [VarInt.Uint64] and
    [VarInt.Size] of it, which are taken as parameters. *)
Class Pkg : Type := {
  VarInt : Type;
  Parse : list byte -> result VarInt;
  Uint64 : VarInt -> result Z;
  Size : VarInt -> result Z
}.
End varint.

Module edtd.
(** Modelled from the spec: the tokenizer of [ebmlstream] is not part of the
    repository.  An element it hands out has a name, a depth level and the
    ability to serialize itself exactly as it appeared on the wire: here
    its public fields [Name] and [Level], what [Bytes()] returns (the
    payload, or an error) and the bytes [WriteTo] sends to its writer. *)
Record Elem : Type := {
  Name : string;
  Level : Z;
  Bytes : result (list byte);
  WriteTo : list byte
}.

(** Modelled from the spec: a parser yields a lazy sequence of elements.
    It is given by the results of its successive [Next] calls; once they
    are used up the source is exhausted and [Next] reports EOF. *)
Definition Parser : Type := list (result Elem).

Definition Next (p : Parser) : result Elem * Parser :=
  match p with
  | [] => (Err io_EOF, [])
  | r :: p' => (r, p')
  end.
End edtd.

(** ** Package [webm] *)

Module webm.
Import edtd.

Definition LacingMode : Type := Z.
Definition Lacing_None : LacingMode := 0.
Definition Xiph : LacingMode := 1.
Definition FixedSize : LacingMode := 2.
Definition EBML : LacingMode := 3.

Record SimpleBlock : Type := {
  sTrackNumber : Z;
  sTimecode : Z;
  sKeyframe : bool;
  sInvisible : bool;
  sDiscardable : bool;
  sLacing : LacingMode
}.

Record Block : Type := {
  TrackNumber : Z;
  Timecode : Z;
  Keyframe : bool;
  Invisible : bool;
  Lacing : LacingMode
}.

(** The inner [for] of the Xiph branch: drop bytes up to and including the
    first one below 255. *)
Fixpoint xiph_frame (data : list byte) : result (list byte) :=
  match data with
  | [] => Panic
  | throwaway :: data' =>
      if u8 throwaway <? 255 then Ok data' else xiph_frame data'
  end.

Section Decoder.
Context {V : varint.Pkg}.

Definition parseAsSimpleBlock (data : list byte) : result SimpleBlock :=
  do trackNumber <- varint.Parse data;
  do trackNumber64 <- varint.Uint64 trackNumber;
  do trackNumberSize <- varint.Size trackNumber;
  do data <- slice_from data trackNumberSize;
  do d1 <- index data 1;
  do d0 <- index data 0;
  let timecode := int16 (Z.lor (int16 (u8 d1)) (int16 (Z.shiftl (int16 (u8 d0)) 8))) in
  do data <- slice_from data 2;
  do flags <- index data 0;
  let lacingMode := Z.land (Z.shiftr (u8 flags) 4) 3 in
  Ok {| sTrackNumber := trackNumber64;
        sTimecode := timecode;
        sKeyframe := Z.land (u8 flags) 128 =? 128;
        sInvisible := Z.land (u8 flags) 8 =? 8;
        sDiscardable := Z.land (u8 flags) 1 =? 1;
        sLacing := lacingMode |}.

Definition NewSimpleBlock (e : Elem) : result SimpleBlock :=
  do data <- Bytes e;
  parseAsSimpleBlock data.

(** One iteration of the EBML lacing loop. *)
Definition ebml_frame (data : list byte) : result (list byte) :=
  do throwaway <- varint.Parse data;
  do throwawaySize <- varint.Size throwaway;
  slice_from data throwawaySize.

Definition parseAsBlock (data : list byte) : result Block :=
  do trackNumber <- varint.Parse data;
  do trackNumber64 <- varint.Uint64 trackNumber;
  do trackNumberSize <- varint.Size trackNumber;
  do data <- slice_from data trackNumberSize;
  do d1 <- index data 1;
  do d0 <- index data 0;
  let timecode := int16 (Z.lor (int16 (u8 d1)) (int16 (Z.shiftl (int16 (u8 d0)) 8))) in
  do data <- slice_from data 2;
  do flags <- index data 0;
  let lacingMode := Z.land (Z.shiftr (u8 flags) 4) 3 in
  do data <- slice_from data 1;
  do data <-
    (if lacingMode >? 0 then
       do numLaceFrames <- index data 0;
       do data <- slice_from data 1;
       if lacingMode =? Xiph then
         for_n (Z.to_nat (u8 numLaceFrames)) xiph_frame data
       else if lacingMode =? EBML then
         for_n (Z.to_nat (u8 numLaceFrames)) ebml_frame data
       else Ok data
     else Ok data);
  do d2 <- index data 2;
  Ok {| TrackNumber := trackNumber64;
        Timecode := timecode;
        Keyframe := Z.land (u8 d2) 1 =? 0;
        Invisible := Z.land (u8 flags) 8 =? 8;
        Lacing := lacingMode |}.

Definition NewBlock (e : Elem) : result Block :=
  do data <- Bytes e;
  parseAsBlock data.

Definition AsKeyBlock (e : Elem) : result (Z * bool) :=
  if String.eqb (Name e) "SimpleBlock" then
    match NewSimpleBlock e with
    | Ok s => Ok (sTrackNumber s, sKeyframe s)
    | Err err => Err err
    | Panic => Panic
    end
  else if String.eqb (Name e) "Block" then
    match NewBlock e with
    | Ok b => Ok (TrackNumber b, Keyframe b)
    | Err err => Err err
    | Panic => Panic
    end
  else Ok (0, false).

End Decoder.
End webm.

(** ** Package [io] *)

Module io.
(** The [io.Writer] interface. *)
Class Writer (W : Type) : Type := {
  Write : list byte -> W -> result unit * W
}.
End io.

(** ** Package [webmkeeper] *)

Module webmkeeper.
Import edtd.

(** The loop of [next].  [skipLevel] is the local of that name; the list is
    the parser, of which every iteration takes one [Next]. *)
Fixpoint next_loop (skipLevel : Z) (p : Parser) : result Elem * Parser :=
  match p with
  | [] => (Err io_EOF, [])
  | r :: p' =>
      match r with
      | Ok el =>
          if (skipLevel >? 0) && (Level el >? skipLevel) then
            next_loop skipLevel p'
          else
            let skipLevel := if skipLevel =? Level el then 0 else skipLevel in
            (Ok el, p')
      | Err err => (Err err, p')
      | Panic => (Panic, p')
      end
  end.

Definition next (p : Parser) : result Elem * Parser := next_loop 0 p.

(** A two-element Go array, indexed by a [uint64]. *)
Definition get2 {A} (a : A * A) (i : Z) : result A :=
  if i =? 0 then Ok (fst a) else if i =? 1 then Ok (snd a) else Panic.

Definition set2 {A} (a : A * A) (i : Z) (x : A) : result (A * A) :=
  if i =? 0 then Ok (x, snd a) else if i =? 1 then Ok (fst a, x) else Panic.

Record WebmKeeper : Type := {
  p : Parser;
  header : list byte;
  body : list byte;
  elemBuf : list byte;
  lastCluster : Z;
  trackBlockCount : byte * byte;
  trackBlockKeyframe : bool * bool
}.

Definition set_p (x : Parser) (wk : WebmKeeper) : WebmKeeper :=
  {| p := x; header := header wk; body := body wk; elemBuf := elemBuf wk;
     lastCluster := lastCluster wk; trackBlockCount := trackBlockCount wk;
     trackBlockKeyframe := trackBlockKeyframe wk |}.

Definition set_body (x : list byte) (wk : WebmKeeper) : WebmKeeper :=
  {| p := p wk; header := header wk; body := x; elemBuf := elemBuf wk;
     lastCluster := lastCluster wk; trackBlockCount := trackBlockCount wk;
     trackBlockKeyframe := trackBlockKeyframe wk |}.

Definition set_elemBuf (x : list byte) (wk : WebmKeeper) : WebmKeeper :=
  {| p := p wk; header := header wk; body := body wk; elemBuf := x;
     lastCluster := lastCluster wk; trackBlockCount := trackBlockCount wk;
     trackBlockKeyframe := trackBlockKeyframe wk |}.

Definition set_lastCluster (x : Z) (wk : WebmKeeper) : WebmKeeper :=
  {| p := p wk; header := header wk; body := body wk; elemBuf := elemBuf wk;
     lastCluster := x; trackBlockCount := trackBlockCount wk;
     trackBlockKeyframe := trackBlockKeyframe wk |}.

Definition set_trackBlockCount (x : byte * byte) (wk : WebmKeeper) : WebmKeeper :=
  {| p := p wk; header := header wk; body := body wk; elemBuf := elemBuf wk;
     lastCluster := lastCluster wk; trackBlockCount := x;
     trackBlockKeyframe := trackBlockKeyframe wk |}.

Definition set_trackBlockKeyframe (x : bool * bool) (wk : WebmKeeper) : WebmKeeper :=
  {| p := p wk; header := header wk; body := body wk; elemBuf := elemBuf wk;
     lastCluster := lastCluster wk; trackBlockCount := trackBlockCount wk;
     trackBlockKeyframe := x |}.

(** [bytes.Buffer.Len] of a buffer nobody reads from. *)
Definition Len (b : list byte) : Z := Z.of_nat (length b).

(** Methods of [*WebmKeeper]: the keeper goes in and comes out, also when
    the method returns an error. *)
Definition K (A : Type) : Type := WebmKeeper -> result A * WebmKeeper.

Definition kret {A} (a : A) : K A := fun wk => (Ok a, wk).

Definition kbind {A B} (m : K A) (k : A -> K B) : K B :=
  fun wk =>
    match m wk with
    | (Ok a, wk') => k a wk'
    | (Err err, wk') => (Err err, wk')
    | (Panic, wk') => (Panic, wk')
    end.

Definition lift {A} (r : result A) : K A := fun wk => (r, wk).
Definition gets {A} (f : WebmKeeper -> A) : K A := fun wk => (Ok (f wk), wk).
Definition modify (f : WebmKeeper -> WebmKeeper) : K unit := fun wk => (Ok tt, f wk).

Notation "'kdo' x <- m ; k" := (kbind m (fun x => k))
  (at level 10, x name, m at level 100, k at level 200).
Notation "m ;; k" := (kbind m (fun _ => k))
  (at level 100, k at level 200, right associativity).

Definition resetTracking : K unit :=
  modify (set_trackBlockCount (x00, x00));;
  modify (set_trackBlockKeyframe (false, false)).

Definition incTrackCount (trackNumber : Z) : K unit :=
  kdo counts <- gets trackBlockCount;
  kdo c <- lift (get2 counts trackNumber);
  if u8 c <? 255 then
    kdo counts' <- lift (set2 counts trackNumber (byte_of_Z (u8 c + 1)));
    modify (set_trackBlockCount counts')
  else kret tt.

Section Keeper.
Context {V : varint.Pkg}.

(** The result type of [New]'s loop; [None] when the iteration budget of
    the embedding is used up, which [New_loop_fuel] shows it never is. *)
Fixpoint New_loop (fuel : nat) (p0 : Parser) (header0 body0 : list byte)
  : option (result WebmKeeper) :=
  match fuel with
  | O => None
  | S fuel' =>
      match next p0 with
      | (Err err, _) => Some (Err err)
      | (Panic, _) => Some Panic
      | (Ok el, p1) =>
          if String.eqb (Name el) "Cluster" then
            Some (Ok {| p := p1;
                        header := header0;
                        body := body0 ++ WriteTo el;
                        elemBuf := [];
                        lastCluster := 0;
                        trackBlockCount := (x00, x00);
                        trackBlockKeyframe := (false, false) |})
          else New_loop fuel' p1 (header0 ++ WriteTo el) body0
      end
  end.

Definition New (r : Parser) : result WebmKeeper :=
  match New_loop (S (length r)) r [] [] with
  | Some res => res
  | None => Panic
  end.

Definition Bootstrap {W} `{io.Writer W} (w : W) (wk : WebmKeeper)
  : result unit * W * WebmKeeper :=
  match io.Write (header wk) w with
  | (Ok _, w1) =>
      match io.Write (body wk) w1 with
      | (Ok _, w2) => (Ok tt, w2, wk)
      | (Err err, w2) => (Err err, w2, wk)
      | (Panic, w2) => (Panic, w2, wk)
      end
  | (Err err, w1) => (Err err, w1, wk)
  | (Panic, w1) => (Panic, w1, wk)
  end.

Definition handleRandomAccessPoint (el : Elem) : K unit :=
  if String.eqb (Name el) "Cluster" then
    kdo body0 <- gets body;
    modify (set_lastCluster (Len body0));;
    resetTracking
  else if String.eqb (Name el) "SimpleBlock" || String.eqb (Name el) "Block" then
    kdo kb <- lift (webm.AsKeyBlock el);
    let trackNumber := fst kb in
    let keyframe := snd kb in
    if (trackNumber >? 2) || (trackNumber <? 1) then
      lift (Err (Errorf_impossible_track trackNumber))
    else
      let trackNumber := trackNumber - 1 in
      incTrackCount trackNumber;;
      (if keyframe then
         kdo kfs <- gets trackBlockKeyframe;
         kdo kfs' <- lift (set2 kfs trackNumber true);
         modify (set_trackBlockKeyframe kfs')
       else kret tt);;
      kdo counts <- gets trackBlockCount;
      kdo kfs <- gets trackBlockKeyframe;
      if (u8 (fst counts) =? 1) && (u8 (snd counts) =? 1) && fst kfs && snd kfs then
        kdo body0 <- gets body;
        kdo lc <- gets lastCluster;
        kdo b <- lift (make (Len body0 - lc));
        kdo tail <- lift (slice_from body0 lc);
        let b := copy b tail in
        modify (set_body []);;
        modify (fun wk => set_body (body wk ++ b) wk);;
        modify (set_lastCluster 0)
      else kret tt
  else kret tt.

Definition next_elem : K Elem :=
  fun wk => let '(r, p') := next (p wk) in (r, set_p p' wk).

Definition Next : K (list byte) :=
  kdo el <- next_elem;
  handleRandomAccessPoint el;;
  modify (set_elemBuf []);;
  modify (fun wk => set_elemBuf (elemBuf wk ++ WriteTo el) wk);;
  kdo eb <- gets elemBuf;
  kdo b <- lift (make (Len eb));
  let b := copy b eb in
  modify (fun wk => set_body (body wk ++ b) wk);;
  kret b.

End Keeper.
End webmkeeper.

(** ** Package [pubsub] *)

Module pubsub.

(** Go channels are named by numbers.  A [pubSub] holds the names of its
    three channels, the set [dsts] its [spin] goroutine maintains and the
    [srcGotten] flag. *)
Record pubSub : Type := {
  addDst : nat;
  remDst : nat;
  src : nat;
  dsts : gset nat;
  srcGotten : bool
}.

(** The multiplexer, together with the part of the Go runtime it acts on:
    [chans] channels have been made so far, [closed] are the closed ones,
    and [sent] lists what was sent on publishing channels, latest last. *)
Record PubSubMux : Type := {
  mux : gmap string pubSub;
  chans : nat;
  closed : gset nat;
  sent : list (nat * list byte)
}.

Definition NewPubSubMux : PubSubMux :=
  {| mux := ∅; chans := 0; closed := ∅; sent := [] |}.

Definition set_mux (m : gmap string pubSub) (pmux : PubSubMux) : PubSubMux :=
  {| mux := m; chans := chans pmux; closed := closed pmux; sent := sent pmux |}.

Definition newPubSub (pmux : PubSubMux) : pubSub * PubSubMux :=
  ({| addDst := chans pmux;
      remDst := S (chans pmux);
      src := S (S (chans pmux));
      dsts := ∅;
      srcGotten := false |},
   {| mux := mux pmux; chans := S (S (S (chans pmux)));
      closed := closed pmux; sent := sent pmux |}).

Definition set_srcGotten (b : bool) (ps : pubSub) : pubSub :=
  {| addDst := addDst ps; remDst := remDst ps; src := src ps;
     dsts := dsts ps; srcGotten := b |}.

Definition set_dsts (d : gset nat) (ps : pubSub) : pubSub :=
  {| addDst := addDst ps; remDst := remDst ps; src := src ps;
     dsts := d; srcGotten := srcGotten ps |}.

Definition GetPubCh (channel : string) (pmux : PubSubMux)
  : (nat * bool) * PubSubMux :=
  let '(ps, pmux) :=
    match mux pmux !! channel with
    | Some ps => (ps, pmux)
    | None =>
        let '(ps, pmux) := newPubSub pmux in
        (ps, set_mux (<[channel := ps]> (mux pmux)) pmux)
    end in
  let srcGotten0 := srcGotten ps in
  let pmux := set_mux (<[channel := set_srcGotten true ps]> (mux pmux)) pmux in
  ((src ps, srcGotten0), pmux).

(** [close(p.src)] ends the [spin] goroutine of [p], which closes every
    channel of [dsts] on its way out. *)
Definition ClosePubCh (channel : string) (pmux : PubSubMux) : bool * PubSubMux :=
  match mux pmux !! channel with
  | None => (false, pmux)
  | Some ps =>
      (true,
       {| mux := delete channel (mux pmux);
          chans := chans pmux;
          closed := closed pmux ∪ {[ src ps ]} ∪ dsts ps;
          sent := sent pmux |})
  end.

(** [accepted] tells whether the [spin] goroutine took the request within
    the second [AddSubCh] waits for it. *)
Definition AddSubCh (channel : string) (ch : nat) (accepted : bool)
    (pmux : PubSubMux) : PubSubMux :=
  let '(ps, pmux) :=
    match mux pmux !! channel with
    | Some ps => (ps, pmux)
    | None =>
        let '(ps, pmux) := newPubSub pmux in
        (ps, set_mux (<[channel := ps]> (mux pmux)) pmux)
    end in
  if accepted then
    set_mux (<[channel := set_dsts (dsts ps ∪ {[ ch ]}) ps]> (mux pmux)) pmux
  else pmux.

Definition RemSubCh (channel : string) (ch : nat) (accepted : bool)
    (pmux : PubSubMux) : PubSubMux :=
  match mux pmux !! channel with
  | None => pmux
  | Some ps =>
      if accepted then
        set_mux (<[channel := set_dsts (dsts ps ∖ {[ ch ]}) ps]> (mux pmux)) pmux
      else pmux
  end.

(** [make(chan interface{}, 100)] *)
Definition make_chan (pmux : PubSubMux) : nat * PubSubMux :=
  (chans pmux,
   {| mux := mux pmux; chans := S (chans pmux);
      closed := closed pmux; sent := sent pmux |}).

(** [ch <- b] on a publishing channel: a send on a closed channel panics. *)
Definition send (ch : nat) (b : list byte) (pmux : PubSubMux)
  : result unit * PubSubMux :=
  if decide (ch ∈ closed pmux) then (Panic, pmux)
  else (Ok tt,
        {| mux := mux pmux; chans := chans pmux; closed := closed pmux;
           sent := sent pmux ++ [(ch, b)] |}).

(** The operations of the multiplexer, for stating properties of
    sequences of calls. *)
Inductive op : Type :=
| OpGetPubCh (channel : string)
| OpClosePubCh (channel : string)
| OpAddSubCh (channel : string) (ch : nat) (accepted : bool)
| OpRemSubCh (channel : string) (ch : nat) (accepted : bool).

Definition run_op (o : op) (pmux : PubSubMux) : PubSubMux :=
  match o with
  | OpGetPubCh channel => snd (GetPubCh channel pmux)
  | OpClosePubCh channel => snd (ClosePubCh channel pmux)
  | OpAddSubCh channel ch accepted => AddSubCh channel ch accepted pmux
  | OpRemSubCh channel ch accepted => RemSubCh channel ch accepted pmux
  end.

Definition run_ops (ops : list op) (pmux : PubSubMux) : PubSubMux :=
  fold_left (fun pm o => run_op o pm) ops pmux.

End pubsub.

(** ** Package [net/http], as the adapter sees it *)

Module http.

(** What a handler did to its [ResponseWriter]. *)
Inductive call : Type :=
| CallWriteHeader (code : Z)
| CallWrite (b : list byte).

(** A response writer records the calls made on it, in order.  [healthy]
    is the number of [Write] calls the connection still carries; after
    that they return an error. *)
Record ResponseWriter : Type := {
  calls : list call;
  healthy : nat
}.

Definition WriteHeader (code : Z) (w : ResponseWriter) : ResponseWriter :=
  {| calls := calls w ++ [CallWriteHeader code]; healthy := healthy w |}.

Definition Write (b : list byte) (w : ResponseWriter) : result unit * ResponseWriter :=
  match healthy w with
  | O => (Err (LibError "write: broken pipe"),
          {| calls := calls w ++ [CallWrite b]; healthy := O |})
  | S n => (Ok tt, {| calls := calls w ++ [CallWrite b]; healthy := n |})
  end.

#[export] Instance ResponseWriter_Writer : io.Writer ResponseWriter :=
  {| io.Write := Write |}.

(** The status line of the response: the first [WriteHeader] counts when it
    comes before any [Write]; otherwise the status is 200. *)
Definition status (w : ResponseWriter) : Z :=
  match calls w with
  | CallWriteHeader code :: _ => code
  | _ => 200
  end.

(** The response body: everything written, in order. *)
Fixpoint body_of (cs : list call) : list byte :=
  match cs with
  | [] => []
  | CallWriteHeader _ :: cs' => body_of cs'
  | CallWrite b :: cs' => b ++ body_of cs'
  end.

Definition response_body (w : ResponseWriter) : list byte := body_of (calls w).

(** A request: its method, [req.URL.Path], and its body, given as the
    parser [webmEdtd.NewParser] makes of it. *)
Record Request : Type := {
  Method : string;
  URL_Path : string;
  Body : edtd.Parser
}.

End http.

(** ** Package [bufio], as the adapter sees it *)

Module bufio.
(** [bufio.NewWriter], [Writer.Write] and [Writer.Flush]; [unwrap] gives
    the response writer the buffered writer holds. *)
Class Pkg : Type := {
  Writer : Type;
  NewWriter : http.ResponseWriter -> Writer;
  Write : list byte -> Writer -> result unit * Writer;
  Flush : Writer -> result unit * Writer;
  unwrap : Writer -> http.ResponseWriter
}.
End bufio.

(** ** Package [httppubsub] *)

Module httppubsub.
Import http.

(** The three callbacks of an application.  [St] is the per-request state
    and [G] the state the callbacks share across requests. *)
Record HTTPPubSubApp (St G : Type) : Type := {
  OnOpen : ResponseWriter -> Request -> G ->
           result (string * St * Z * string) * ResponseWriter * G;
  GetNext : St -> Request -> G -> result (list byte * Z * string) * G;
  OnClose : St -> ResponseWriter -> Request -> G ->
            result (Z * string) * ResponseWriter * G
}.
Arguments OnOpen {St G} _.
Arguments GetNext {St G} _.
Arguments OnClose {St G} _.

(** [[]byte(s)] *)
Definition bytes_of_string (s : string) : list byte := String.list_byte_of_string s.

Definition bail (w : ResponseWriter) (code : Z) (ret : string)
  : bool * ResponseWriter :=
  if code =? 0 then (false, w)
  else
    let w := WriteHeader code w in
    let '(_, w) := Write (bytes_of_string ret) w in
    (true, w).

(** The state a request handler runs in. *)
Record World (G : Type) : Type := {
  resp : ResponseWriter;
  glob : G;
  pmux : pubsub.PubSubMux
}.
Arguments resp {G} _.
Arguments glob {G} _.
Arguments pmux {G} _.
Arguments Build_World {G} _ _ _.

Section Handler.
Context {B : bufio.Pkg} {St G : Type} (app : HTTPPubSubApp St G).

Definition doLast (state : St) (req : Request) (wd : World G)
  : result unit * World G :=
  match OnClose app state (resp wd) req (glob wd) with
  | (Ok (code, ret), w, g) =>
      let '(_, w) := bail w code ret in
      (Ok tt, Build_World w g (pmux wd))
  | (Err err, w, g) => (Err err, Build_World w g (pmux wd))
  | (Panic, w, g) => (Panic, Build_World w g (pmux wd))
  end.

(** The publishing loop of [ServeHTTP].  It ends when [GetNext] gives a
    non-zero code; [None] says it was still running after [fuel] rounds. *)
Fixpoint publish_loop (fuel : nat) (state : St) (req : Request) (ch : nat)
    (wd : World G) : option (result unit * World G) :=
  match fuel with
  | O => None
  | S fuel' =>
      match GetNext app state req (glob wd) with
      | (Ok (b, code, ret), g) =>
          let wd := Build_World (resp wd) g (pmux wd) in
          let '(r, pm) :=
            if (0 <? Z.of_nat (length b))
            then pubsub.send ch b (pmux wd)
            else (Ok tt, pmux wd) in
          let wd := Build_World (resp wd) (glob wd) pm in
          match r with
          | Ok _ =>
              let '(stop, w) := bail (resp wd) code ret in
              let wd := Build_World w (glob wd) (pmux wd) in
              if stop then Some (Ok tt, wd) else publish_loop fuel' state req ch wd
          | Err err => Some (Err err, wd)
          | Panic => Some (Panic, wd)
          end
      | (Err err, g) => Some (Err err, Build_World (resp wd) g (pmux wd))
      | (Panic, g) => Some (Panic, Build_World (resp wd) g (pmux wd))
      end
  end.

(** The subscriber loop of [ServeHTTP]: [inbox] lists what the channel
    delivers before it is closed.  The boolean tells whether the loop ran
    to the end of the channel. *)
Fixpoint subscribe_loop (inbox : list (list byte)) (buf : bufio.Writer)
  : bool * bufio.Writer :=
  match inbox with
  | [] => (true, buf)
  | b :: inbox' =>
      match bufio.Write b buf with
      | (Ok _, buf) =>
          let '(_, buf) := bufio.Flush buf in
          subscribe_loop inbox' buf
      | (_, buf) => (false, buf)
      end
  end.

(** [ServeHTTP].  [addAccepted] and [remAccepted] say whether the bus took
    the subscription requests in time, [inbox] is what the subscriber's
    channel delivers.  A result other than [Ok] is a panic of a callback,
    which ends the handler. *)
Definition ServeHTTP (fuel : nat) (addAccepted remAccepted : bool)
    (inbox : list (list byte)) (req : Request) (wd : World G)
  : option (result unit * World G) :=
  match OnOpen app (resp wd) req (glob wd) with
  | (Ok (channel, state, code, ret), w, g) =>
      let wd := Build_World w g (pmux wd) in
      let '(stop, w) := bail (resp wd) code ret in
      let wd := Build_World w (glob wd) (pmux wd) in
      if stop then Some (Ok tt, wd)
      else if String.eqb (Method req) "POST" then
        let '(ch, exists_, pm) := pubsub.GetPubCh channel (pmux wd) in
        let wd := Build_World (resp wd) (glob wd) pm in
        if exists_ then
          let wd := Build_World (WriteHeader 403 (resp wd)) (glob wd) (pmux wd) in
          Some (doLast state req wd)
        else
          match publish_loop fuel state req ch wd with
          | None => None
          | Some (r, wd) =>
              (* deferred: h.pmux.ClosePubCh(channel) *)
              let '(_, pm) := pubsub.ClosePubCh channel (pmux wd) in
              Some (r, Build_World (resp wd) (glob wd) pm)
          end
      else if String.eqb (Method req) "GET" then
        let '(ch, pm) := pubsub.make_chan (pmux wd) in
        let pm := pubsub.AddSubCh channel ch addAccepted pm in
        let wd := Build_World (resp wd) (glob wd) pm in
        let buf := bufio.NewWriter (resp wd) in
        let '(finished, buf) := subscribe_loop inbox buf in
        let wd := Build_World (bufio.unwrap buf) (glob wd) (pmux wd) in
        if finished then Some (doLast state req wd)
        else
          let wd := Build_World (resp wd) (glob wd)
                      (pubsub.RemSubCh channel ch remAccepted (pmux wd)) in
          Some (doLast state req wd)
      else Some (doLast state req wd)
  | (Err err, w, g) => Some (Err err, Build_World w g (pmux wd))
  | (Panic, w, g) => Some (Panic, Build_World w g (pmux wd))
  end.

End Handler.
End httppubsub.

(** ** Package [main] *)

Module main.
Import http httppubsub.
Import webmkeeper.

(** [keeper] is a pointer: an address in [heap], or [None] for [nil]. *)
Record connState : Type := {
  isBcaster : bool;
  channel : string;
  keeper : option nat
}.

(** The package-level [keepers] map, and the keepers it points to. *)
Record Globals : Type := {
  heap : gmap nat WebmKeeper;
  keepers : gmap string nat
}.

Definition getKeeper (channel : string) (g : Globals) : option nat :=
  keepers g !! channel.

Definition addKeeper (channel : string) (k : nat) (g : Globals) : bool * Globals :=
  match keepers g !! channel with
  | Some _ => (false, g)
  | None => (true, {| heap := heap g; keepers := <[channel := k]> (keepers g) |})
  end.

Definition remKeeper (channel : string) (g : Globals) : Globals :=
  {| heap := heap g; keepers := delete channel (keepers g) |}.

(** Allocation of a keeper at an unused address. *)
Definition alloc (wk : WebmKeeper) (g : Globals) : nat * Globals :=
  let a := fresh (dom (heap g)) in
  (a, {| heap := <[a := wk]> (heap g); keepers := keepers g |}).

Section App.
Context {V : varint.Pkg}.

Definition OnOpen (w : ResponseWriter) (req : Request) (g : Globals)
  : result (string * connState * Z * string) * ResponseWriter * Globals :=
  let channel := URL_Path req in
  let s := {| isBcaster := false; channel := channel; keeper := None |} in
  if String.eqb (Method req) "POST" then
    let s := {| isBcaster := true; channel := channel; keeper := None |} in
    match New (Body req) with
    | Err err => (Ok (channel, s, 400, Error err), w, g)
    | Panic => (Panic, w, g)
    | Ok wk =>
        let '(k, g) := alloc wk g in
        let s := {| isBcaster := true; channel := channel; keeper := Some k |} in
        let '(added, g) := addKeeper channel k g in
        if negb added then (Ok (channel, s, 400, "has a writer already"%string), w, g)
        else (Ok (channel, s, 0, ""%string), w, g)
    end
  else
    match getKeeper channel g with
    | None =>
        (Ok (channel, s, 404, String.append "couldn't find stream " channel), w, g)
    | Some k =>
        match heap g !! k with
        | None => (Panic, w, g)
        | Some wk =>
            let '(_, w, wk) := Bootstrap w wk in
            (Ok (channel, s, 0, ""%string), w,
             {| heap := <[k := wk]> (heap g); keepers := keepers g |})
        end
    end.

Definition GetNext (s : connState) (req : Request) (g : Globals)
  : result (list byte * Z * string) * Globals :=
  match keeper s with
  | None => (Panic, g)
  | Some k =>
      match heap g !! k with
      | None => (Panic, g)
      | Some wk =>
          let '(r, wk) := Next wk in
          let g := {| heap := <[k := wk]> (heap g); keepers := keepers g |} in
          match r with
          | Err err => (Ok ([], 500, Error err), remKeeper (channel s) g)
          | Ok b => (Ok (b, 0, ""%string), g)
          | Panic => (Panic, g)
          end
      end
  end.

Definition OnClose (s : connState) (w : ResponseWriter) (req : Request) (g : Globals)
  : result (Z * string) * ResponseWriter * Globals :=
  let g := if isBcaster s then remKeeper (channel s) g else g in
  (Ok (0, ""%string), w, g).

Definition app : HTTPPubSubApp connState Globals :=
  {| httppubsub.OnOpen := OnOpen;
     httppubsub.GetNext := GetNext;
     httppubsub.OnClose := OnClose |}.

End App.
End main.

(** ** A concrete [varint] package *)

Module ebml_varint.

(** Modelled from the spec: the [varint] package belongs to the
    [ebmlstream] library and is not part of the repository.  The design
    document describes it so: the width is determined by the position of
    the highest set bit in the leading byte; that marker bit and the width
    itself are stripped before the remaining bits are read as an unsigned
    big-endian integer. *)
Definition width (b0 : byte) : option nat :=
  if u8 b0 =? 0 then None else Some (Z.to_nat (8 - Z.log2 (u8 b0))).

(** Modelled from the spec: the value of a varint, its marker bit
    stripped, as a big-endian unsigned integer. *)
Definition value (v : list byte) : Z :=
  match v with
  | [] => 0
  | b0 :: rest =>
      fold_left (fun acc b => acc * 256 + u8 b) rest
        (Z.land (u8 b0) (Z.shiftr 255 (Z.of_nat (length v))))
  end.

(** Modelled from the spec: parsing takes the bytes of the varint off the
    front of the data and fails on an invalid leading byte or on short
    data. *)
Definition Parse (data : list byte) : result (list byte) :=
  match data with
  | [] => Err (LibError "varint: no data")
  | b0 :: _ =>
      match width b0 with
      | None => Err (LibError "varint: invalid width")
      | Some w =>
          if (w <=? length data)%nat then Ok (take w data)
          else Err (LibError "varint: short data")
      end
  end.

Definition pkg : varint.Pkg :=
  {| varint.VarInt := list byte;
     varint.Parse := Parse;
     varint.Uint64 := fun v => Ok (value v);
     varint.Size := fun v => Ok (Z.of_nat (length v)) |}.

End ebml_varint.

(** A [bufio] package that does not buffer, for running the adapter on
    examples. *)
Definition unbuffered : bufio.Pkg :=
  {| bufio.Writer := http.ResponseWriter;
     bufio.NewWriter := fun w => w;
     bufio.Write := http.Write;
     bufio.Flush := fun w => (Ok tt, w);
     bufio.unwrap := fun w => w |}.

(** ** Vocabulary of the design document *)

Module spec.
Import edtd webmkeeper.

Fixpoint drop_while {A} (f : A -> bool) (l : list A) : list A :=
  match l with
  | [] => []
  | x :: l' => if f x then drop_while f l' else l
  end.

Fixpoint iter_opt {A} (n : nat) (f : A -> option A) (x : A) : option A :=
  match n with
  | O => Some x
  | S n' => match f x with Some y => iter_opt n' f y | None => None end
  end.

(** Xiph lacing, one frame: consume bytes until one is strictly less than
    255 (that one included). *)
Definition strip_xiph (data : list byte) : option (list byte) :=
  match drop_while (fun b => u8 b =? 255) data with
  | [] => None
  | _ :: rest => Some rest
  end.

Section BlockLayout.
Context {V : varint.Pkg}.

(** Consume one varint. *)
Definition strip_varint (data : list byte) : option (list byte) :=
  match varint.Parse data with
  | Ok v =>
      match varint.Size v with
      | Ok n =>
          if (0 <=? n) && (n <=? Z.of_nat (length data))
          then Some (drop (Z.to_nat n) data) else None
      | _ => None
      end
  | _ => None
  end.

(** The payload of a Block once the track number, the two bytes of
    timecode, the flags byte and the lacing preambles are stripped. *)
Definition block_remaining (data : list byte) : option (list byte) :=
  match strip_varint data with
  | Some (_ :: _ :: flags :: data1) =>
      let lacing := Z.land (Z.shiftr (u8 flags) 4) 3 in
      if lacing =? 0 then Some data1
      else
        match data1 with
        | n :: data2 =>
            if lacing =? 1 then iter_opt (Z.to_nat (u8 n)) strip_xiph data2
            else if lacing =? 3 then iter_opt (Z.to_nat (u8 n)) strip_varint data2
            else Some data2
        | [] => None
        end
  | _ => None
  end.

(** The track number of a Block payload. *)
Definition block_track (data : list byte) : result Z :=
  do v <- varint.Parse data; varint.Uint64 v.

End BlockLayout.

(** Reading the tracking arrays of a keeper at index 0 or 1. *)
Definition count_at (wk : WebmKeeper) (i : Z) : Z :=
  if i =? 0 then u8 (fst (trackBlockCount wk)) else u8 (snd (trackBlockCount wk)).

Definition keyframe_at (wk : WebmKeeper) (i : Z) : bool :=
  if i =? 0 then fst (trackBlockKeyframe wk) else snd (trackBlockKeyframe wk).

(** The four conditions that confirm a random-access point. *)
Definition all_four (wk : WebmKeeper) : bool :=
  (count_at wk 0 =? 1) && (count_at wk 1 =? 1) &&
  keyframe_at wk 0 && keyframe_at wk 1.

Definition is_Cluster (el : Elem) : bool := String.eqb (Name el) "Cluster".

Definition is_block (el : Elem) : bool :=
  String.eqb (Name el) "SimpleBlock" || String.eqb (Name el) "Block".

(** The serialization of a run of elements. *)
Definition wire (els : list Elem) : list byte := concat (map WriteTo els).

(** The elements of a cluster: those up to the next Cluster element. *)
Fixpoint cluster_body (els : list Elem) : list Elem :=
  match els with
  | [] => []
  | el :: els' => if is_Cluster el then [] else el :: cluster_body els'
  end.

(** The random-access-point rule, as the design document words it.  It
    acts on the body buffer, the offset of the last Cluster, the two block
    counts and the two keyframe flags. *)
Record rap_state : Type := {
  rs_body : list byte;
  last_cluster_offset : Z;
  track_block_count : Z * Z;
  track_block_keyframe : bool * bool
}.

Inductive rap_event : Type :=
| EvCluster
| EvBlock (track : Z) (keyframe : bool)
| EvOther.

Definition rap_rule (ev : rap_event) (s : rap_state) : rap_state :=
  match ev with
  | EvCluster =>
      {| rs_body := rs_body s;
         last_cluster_offset := Z.of_nat (length (rs_body s));
         track_block_count := (0, 0);
         track_block_keyframe := (false, false) |}
  | EvBlock t kf =>
      let count :=
        if t =? 1
        then (Z.min 255 (fst (track_block_count s) + 1), snd (track_block_count s))
        else (fst (track_block_count s), Z.min 255 (snd (track_block_count s) + 1)) in
      let keyframe :=
        if t =? 1
        then (fst (track_block_keyframe s) || kf, snd (track_block_keyframe s))
        else (fst (track_block_keyframe s), snd (track_block_keyframe s) || kf) in
      if (fst count =? 1) && (snd count =? 1) && fst keyframe && snd keyframe
      then {| rs_body := drop (Z.to_nat (last_cluster_offset s)) (rs_body s);
              last_cluster_offset := 0;
              track_block_count := count;
              track_block_keyframe := keyframe |}
      else {| rs_body := rs_body s;
              last_cluster_offset := last_cluster_offset s;
              track_block_count := count;
              track_block_keyframe := keyframe |}
  | EvOther => s
  end.

(** The part of a keeper the rule is about. *)
Definition rap_of (wk : WebmKeeper) : rap_state :=
  {| rs_body := body wk;
     last_cluster_offset := lastCluster wk;
     track_block_count :=
       (u8 (fst (trackBlockCount wk)), u8 (snd (trackBlockCount wk)));
     track_block_keyframe := trackBlockKeyframe wk |}.

(** The part of a keeper the rule leaves alone. *)
Definition same_frame (wk wk' : WebmKeeper) : Prop :=
  p wk' = p wk /\ header wk' = header wk /\ elemBuf wk' = elemBuf wk.

(** The offset of the last Cluster lies within the body. *)
Definition offset_ok (wk : WebmKeeper) : Prop :=
  0 <= lastCluster wk <= Z.of_nat (length (body wk)).

Section Streams.
Context {V : varint.Pkg}.

(** [n] calls of [Next] that all complete; [None] when one of them fails. *)
Fixpoint Next_n (n : nat) (wk : WebmKeeper) : option WebmKeeper :=
  match n with
  | O => Some wk
  | S n' =>
      match Next_n n' wk with
      | Some wk' =>
          match Next wk' with
          | (Ok _, wk'') => Some wk''
          | _ => None
          end
      | None => None
      end
  end.

(** [n] calls of [Next], whatever they return. *)
Fixpoint Next_any (n : nat) (wk : WebmKeeper) : WebmKeeper :=
  match n with
  | O => wk
  | S n' => snd (Next (Next_any n' wk))
  end.

(** The keyframe flags of the blocks of track [t] among [els], in order. *)
Fixpoint blocks_of (t : Z) (els : list Elem) : list bool :=
  match els with
  | [] => []
  | el :: els' =>
      if is_block el then
        match webm.AsKeyBlock el with
        | Ok (t', kf) => if t' =? t then kf :: blocks_of t els' else blocks_of t els'
        | _ => blocks_of t els'
        end
      else blocks_of t els'
  end.

(** The keyframe flag of the first block of track [t] among [els]. *)
Definition first_block_of (t : Z) (els : list Elem) : option bool :=
  head (blocks_of t els).

(** The tracking arrays of [wk] describe the elements [cur] of the current
    cluster. *)
Definition tracks (wk : WebmKeeper) (cur : list Elem) : Prop :=
  count_at wk 0 = Z.min 255 (Z.of_nat (length (blocks_of 1 cur))) /\
  count_at wk 1 = Z.min 255 (Z.of_nat (length (blocks_of 2 cur))) /\
  keyframe_at wk 0 = existsb id (blocks_of 1 cur) /\
  keyframe_at wk 1 = existsb id (blocks_of 2 cur).

(** The invariant of a keeper: its body is the serialization of the
    elements [els1], which start at a Cluster when there are any, followed
    by the current cluster, the Cluster element [c] and its elements [cur]
    so far; the offset points at [c]; the tracking arrays describe [cur];
    and when the four conditions hold the current cluster leads the
    body. *)
Definition keeper_inv (wk : WebmKeeper) (els1 : list Elem) (c : Elem)
    (cur : list Elem) : Prop :=
  body wk = wire (els1 ++ c :: cur) /\
  lastCluster wk = Z.of_nat (length (wire els1)) /\
  is_Cluster c = true /\
  Forall (fun el => is_Cluster el = false) cur /\
  tracks wk cur /\
  (all_four wk = true -> els1 = []) /\
  match els1 with [] => True | c1 :: _ => is_Cluster c1 = true end.

(** A run of elements that starts at a Cluster of which the first block of
    track 1 and the first block of track 2 are keyframes. *)
Definition starts_at_keyed_cluster (els : list Elem) : Prop :=
  match els with
  | [] => False
  | c :: rest =>
      is_Cluster c = true /\
      first_block_of 1 (cluster_body rest) = Some true /\
      first_block_of 2 (cluster_body rest) = Some true
  end.

(** A random-access point has been confirmed within the first [n] calls of
    [Next] on [wk0]. *)
Definition rap_confirmed (n : nat) (wk0 : WebmKeeper) : Prop :=
  exists k wk, (k <= n)%nat /\ Next_n k wk0 = Some wk /\ all_four wk = true.

(** Operations on a keeper once it is built. *)
Inductive keeper_op : Type :=
| DoNext
| DoBootstrap (w : http.ResponseWriter)
| DoHandleRandomAccessPoint (el : Elem).

Definition run_keeper_op (o : keeper_op) (wk : WebmKeeper) : WebmKeeper :=
  match o with
  | DoNext => snd (Next wk)
  | DoBootstrap w => snd (Bootstrap (H := http.ResponseWriter_Writer) w wk)
  | DoHandleRandomAccessPoint el => snd (handleRandomAccessPoint el wk)
  end.

End Streams.

(** Whether a publisher is live on [channel] after the calls [ops]: the
    last [GetPubCh] or [ClosePubCh] for that name was a [GetPubCh]. *)
Fixpoint live_from (channel : string) (ops : list pubsub.op) (acc : bool) : bool :=
  match ops with
  | [] => acc
  | pubsub.OpGetPubCh c :: ops' =>
      live_from channel ops' (if String.eqb c channel then true else acc)
  | pubsub.OpClosePubCh c :: ops' =>
      live_from channel ops' (if String.eqb c channel then false else acc)
  | _ :: ops' => live_from channel ops' acc
  end.

Definition live (channel : string) (ops : list pubsub.op) : bool :=
  live_from channel ops false.

End spec.

(** ** A small stream, for instances of the properties *)

Module examples.
Import edtd webmkeeper.

Definition elem (name : string) (payload wire : list byte) : Elem :=
  {| Name := name; Level := 1; Bytes := Ok payload; WriteTo := wire |}.

(** SimpleBlocks: track 1 without and with a keyframe, track 2 and track 3
    with a keyframe. *)
Definition block1 : Elem := elem "SimpleBlock" [x81; x00; x00; x00] [x04].
Definition key1 : Elem := elem "SimpleBlock" [x81; x00; x00; x80] [x07].
Definition key2 : Elem := elem "SimpleBlock" [x82; x00; x00; x80] [x08].
Definition key3 : Elem := elem "SimpleBlock" [x83; x00; x00; x80] [x09].

Definition head_elems : list Elem :=
  [elem "EBML" [] [x01]; elem "Segment" [] [x02]].
Definition cluster1 : Elem := elem "Cluster" [] [x03].
Definition cluster2 : Elem := elem "Cluster" [] [x06].

(** Two clusters; only the second one starts with a keyframe on each
    track.  A block of track 3 ends the stream. *)
Definition after_cluster1 : Parser :=
  map Ok [block1; elem "SimpleBlock" [x82; x00; x00; x80] [x05];
          cluster2; key1; key2; key3].

Definition stream : Parser :=
  map Ok head_elems ++ Ok cluster1 :: after_cluster1.

(** The keeper [New] makes of [stream]. *)
Definition wk0 : WebmKeeper :=
  {| p := after_cluster1; header := [x01; x02]; body := [x03];
     elemBuf := []; lastCluster := 0; trackBlockCount := (x00, x00);
     trackBlockKeyframe := (false, false) |}.

(** The keeper after four calls of [Next]: the second cluster is open and
    its block of track 1 is in. *)
Definition wk4 : WebmKeeper :=
  {| p := map Ok [key2; key3]; header := [x01; x02];
     body := [x03; x04; x05; x06; x07];
     elemBuf := [x07]; lastCluster := 3; trackBlockCount := (x01, x00);
     trackBlockKeyframe := (true, false) |}.

(** The keeper after five calls: the body was cut at the second cluster. *)
Definition wk5 : WebmKeeper :=
  {| p := map Ok [key3]; header := [x01; x02];
     body := [x06; x07; x08];
     elemBuf := [x08]; lastCluster := 0; trackBlockCount := (x01, x01);
     trackBlockKeyframe := (true, true) |}.

(** A keeper whose count for track 1 has reached 255. *)
Definition wk_full : WebmKeeper :=
  {| p := map Ok [block1; block1]; header := [x01; x02]; body := [x03];
     elemBuf := []; lastCluster := 0; trackBlockCount := (xff, x00);
     trackBlockKeyframe := (false, false) |}.

(** A GET for a channel nobody publishes, on a server that has just
    started and whose connection carries one write. *)
Definition get_missing : http.Request :=
  {| http.Method := "GET"; http.URL_Path := "/stream/missing";
     http.Body := [] |}.

Definition fresh_world : httppubsub.World main.Globals :=
  httppubsub.Build_World
    {| http.calls := []; http.healthy := 1 |}
    {| main.heap := (∅ : gmap nat WebmKeeper);
       main.keepers := (∅ : gmap string nat) |}
    pubsub.NewPubSubMux.

End examples.

(** ** Runs of the keeper, and the default application *)

Module flow.
Import edtd webmkeeper.

Section Runs.
Context {V : varint.Pkg}.

(** [n] calls of [Next] that all complete, with the byte slices they
    return, in order. *)
Fixpoint Next_run (n : nat) (wk : WebmKeeper)
  : option (list (list byte) * WebmKeeper) :=
  match n with
  | O => Some ([], wk)
  | S n' =>
      match Next wk with
      | (Ok b, wk') =>
          match Next_run n' wk' with
          | Some (outs, wk'') => Some (b :: outs, wk'')
          | None => None
          end
      | _ => None
      end
  end.

End Runs.

(** The slices [ServeHTTP] hands to the bus: the non-empty ones. *)
Definition published (ch : nat) (outs : list (list byte))
  : list (nat * list byte) :=
  map (fun b => (ch, b))
      (List.filter (fun b => 0 <? Z.of_nat (length b)) outs).

End flow.

Module defaults.
Import http httppubsub.

Definition io_ErrUnexpectedEOF : goerr := LibError "unexpected EOF".

(** [err == io.EOF] *)
Definition is_EOF (err : option goerr) : bool :=
  match err with
  | Some (LibError msg) => String.eqb msg "EOF"
  | _ => false
  end.

(** A request body as a byte stream.  [ReadFull r n] is what
    [io.ReadFull(r, b)] does for a buffer [b] of [n] bytes: the bytes it
    puts at the front of [b], the error, and the reader afterwards. *)
Class Reader (R : Type) : Type := {
  ReadFull : R -> nat -> list byte * option goerr * R
}.

(** A reader that has the bytes of a list left and then ends. *)
#[export] Instance bytes_Reader : Reader (list byte) := {|
  ReadFull := fun body n =>
    match n with
    | O => ([], None, body)
    | S _ =>
        match body with
        | [] => ([], Some io_EOF, [])
        | _ :: _ =>
            if (length body <? n)%nat
            then (body, Some io_ErrUnexpectedEOF, [])
            else (take n body, None, drop n body)
        end
    end
|}.

Section Default.
Context {R : Type} {Rd : Reader R}.

(** [DefaultHTTPPubSubApp].  The per-request state is [nil]; the state the
    callbacks share is the request body, read as a byte stream. *)
Definition DefaultHTTPPubSubApp : HTTPPubSubApp unit R :=
  {| OnOpen := fun w req g => (Ok (URL_Path req, tt, 0, ""%string), w, g);
     GetNext := fun s req g =>
       match make 10240 with
       | Ok b =>
           let '(data, err, g) := ReadFull g (length b) in
           let b := copy b data in
           if is_EOF err then (Ok (b, 200, ""%string), g)
           else (Ok (b, 500, "unknown error reading"%string), g)
       | Err e => (Err e, g)
       | Panic => (Panic, g)
       end;
     OnClose := fun s w req g => (Ok (0, ""%string), w, g) |}.

End Default.
End defaults.

(** ** The goroutine of a channel *)

Module spinner.

(** A Go channel of messages, as the goroutine and its subscriber see it:
    the messages it buffers, its capacity, whether it is closed, and the
    messages its receiver has taken so far. *)
Record chan : Type := {
  buf : list (list byte);
  cap : nat;
  closed : bool;
  taken : list (list byte)
}.

Definition push (msg : list byte) (c : chan) : chan :=
  if (length (buf c) <? cap c)%nat
  then {| buf := buf c ++ [msg]; cap := cap c; closed := closed c;
          taken := taken c |}
  else c.

(** [select { case ch <- msg: default: }].  A send on a closed channel
    panics; on a full channel the message is dropped; a channel that was
    never made is [nil], on which a send is never ready. *)
Definition try_send (msg : list byte) (ch : nat) (hp : gmap nat chan)
  : result (gmap nat chan) :=
  match hp !! ch with
  | None => Ok hp
  | Some c => if closed c then Panic else Ok (<[ch := push msg c]> hp)
  end.

Definition shut (c : chan) : chan :=
  {| buf := buf c; cap := cap c; closed := true; taken := taken c |}.

(** [close(ch)]: closing a closed or a [nil] channel panics. *)
Definition close_chan (ch : nat) (hp : gmap nat chan)
  : result (gmap nat chan) :=
  match hp !! ch with
  | None => Panic
  | Some c => if closed c then Panic else Ok (<[ch := shut c]> hp)
  end.

(** The receiver of [ch] takes the oldest message, when there is one. *)
Definition recv (ch : nat) (hp : gmap nat chan) : gmap nat chan :=
  match hp !! ch with
  | Some c =>
      match buf c with
      | m :: b => <[ch := {| buf := b; cap := cap c; closed := closed c;
                             taken := taken c ++ [m] |}]> hp
      | [] => hp
      end
  | None => hp
  end.

(** [for ch := range p.dsts { body }] *)
Fixpoint for_range {S : Type} (l : list nat) (body : nat -> S -> result S)
    (s : S) : result S :=
  match l with
  | [] => Ok s
  | ch :: l' =>
      match body ch s with
      | Ok s' => for_range l' body s'
      | Err e => Err e
      | Panic => Panic
      end
  end.

(** What the [select] of [spin] receives: a channel on [addDst], a channel
    on [remDst], a message on [src], or the closing of [src].  [Recv] is
    a move of a subscriber, between two rounds of the loop. *)
Inductive event : Type :=
| AddDst (ch : nat)
| RemDst (ch : nat)
| Src (msg : list byte)
| SrcClosed
| Recv (ch : nat).

(** [spin], over the events it meets.  The first component of the result
    is the set [dsts] while the loop runs and [None] once the goroutine
    has ended, which it does at the closing of [src]. *)
Fixpoint spin (evs : list event) (dsts : gset nat) (hp : gmap nat chan)
  : result (option (gset nat) * gmap nat chan) :=
  match evs with
  | [] => Ok (Some dsts, hp)
  | AddDst ch :: evs' => spin evs' (dsts ∪ {[ ch ]}) hp
  | RemDst ch :: evs' => spin evs' (dsts ∖ {[ ch ]}) hp
  | Src msg :: evs' =>
      match for_range (elements dsts) (try_send msg) hp with
      | Ok hp' => spin evs' dsts hp'
      | Err e => Err e
      | Panic => Panic
      end
  | SrcClosed :: evs' =>
      match for_range (elements dsts) close_chan hp with
      | Ok hp' => Ok (None, hp')
      | Err e => Err e
      | Panic => Panic
      end
  | Recv ch :: evs' => spin evs' dsts (recv ch hp)
  end.

(** The messages published in a run, in order. *)
Definition published (evs : list event) : list (list byte) :=
  omap (fun ev => match ev with Src msg => Some msg | _ => None end) evs.

End spinner.

(** ** Further examples *)

Module scenarios.
Import edtd webmkeeper.

(** A POST of [examples.stream] to [/stream/a]. *)
Definition post_stream : http.Request :=
  {| http.Method := "POST"; http.URL_Path := "/stream/a";
     http.Body := examples.stream |}.

(** A POST whose body ends before its first element. *)
Definition post_empty : http.Request :=
  {| http.Method := "POST"; http.URL_Path := "/stream/a"; http.Body := [] |}.

Definition head_stream : http.Request :=
  {| http.Method := "HEAD"; http.URL_Path := "/stream/a"; http.Body := [] |}.

(** A server on which [/stream/a] has a keeper, at address 0. *)
Definition busy_world : httppubsub.World main.Globals :=
  httppubsub.Build_World
    {| http.calls := []; http.healthy := 2 |}
    {| main.heap := <[0%nat := examples.wk5]> (∅ : gmap nat WebmKeeper);
       main.keepers := <["/stream/a"%string := 0%nat]> (∅ : gmap string nat) |}
    pubsub.NewPubSubMux.

(** A payload whose track number is the one-byte varint 1, without
    lacing. *)
Definition block_payload : list byte :=
  [x81; x00; x00; x00; x00; x00; x00].

(** A multiplexer on which [/stream/a] has a publisher and the subscriber
    queue 7. *)
Definition live_mux : pubsub.PubSubMux :=
  pubsub.AddSubCh "/stream/a" 7 true
    (snd (pubsub.GetPubCh "/stream/a" pubsub.NewPubSubMux)).

Definition live_entry : pubsub.pubSub :=
  {| pubsub.addDst := 0; pubsub.remDst := 1; pubsub.src := 2;
     pubsub.dsts := {[ 7%nat ]}; pubsub.srcGotten := true |}.

Definition no_keepers : main.Globals :=
  {| main.heap := (∅ : gmap nat WebmKeeper);
     main.keepers := (∅ : gmap string nat) |}.

(** A server that serves the default application, on a request whose body
    has three bytes. *)
Definition default_world : httppubsub.World (list byte) :=
  httppubsub.Build_World
    {| http.calls := []; http.healthy := 2 |}
    [x01; x02; x03]
    pubsub.NewPubSubMux.

(** A subscriber queue with room for two messages that holds one, and a
    heap on which it is channel 7. *)
Definition queue7 : spinner.chan :=
  {| spinner.buf := [[x01]]; spinner.cap := 2; spinner.closed := false;
     spinner.taken := [] |}.

Definition one_queue : gmap nat spinner.chan :=
  <[7%nat := queue7]> (∅ : gmap nat spinner.chan).

Definition only7 : gset nat := {[ 7%nat ]}.

End scenarios.

(** * Properties *)

(** ** Results, bytes and slices *)

Lemma rbind_Ok {A B} (m : result A) (k : A -> result B) (b : B) :
  rbind m k = Ok b <-> exists a, m = Ok a /\ k a = Ok b.
Proof.
  destruct m as [a|e|]; simpl; split.
  - intros H. now exists a.
  - now intros (a' & [= ->] & H).
  - discriminate.
  - now intros (a' & [=] & _).
  - discriminate.
  - now intros (a' & [=] & _).
Qed.

Lemma u8_range (b : byte) : 0 <= u8 b <= 255.
Proof.
  unfold u8. pose proof (Byte.to_N_bounded b) as H.
  split; [apply N2Z.is_nonneg|].
  change 255 with (Z.of_N 255). now apply N2Z.inj_le.
Qed.

Lemma u8_byte_of_Z (z : Z) : u8 (byte_of_Z z) = z mod 256.
Proof.
  unfold byte_of_Z, u8.
  assert (Hr : 0 <= z mod 256 < 256) by (apply Z.mod_pos_bound; lia).
  destruct (Byte.of_N (Z.to_N (z mod 256))) as [b|] eqn:E.
  - apply Byte.to_of_N in E. rewrite E. rewrite Z2N.id; lia.
  - apply Byte.of_N_None_iff in E. lia.
Qed.

Lemma slice_from_nat {A} (l : list A) (n : nat) :
  (n <= length l)%nat -> slice_from l (Z.of_nat n) = Ok (drop n l).
Proof.
  intros H. unfold slice_from.
  destruct (Z.ltb_spec (Z.of_nat n) 0); [lia|].
  destruct (Z.ltb_spec (Z.of_nat (length l)) (Z.of_nat n)); [lia|].
  simpl. now rewrite Nat2Z.id.
Qed.

Lemma slice_from_Ok {A} (l l' : list A) (n : Z) :
  slice_from l n = Ok l' <->
  0 <= n <= Z.of_nat (length l) /\ l' = drop (Z.to_nat n) l.
Proof.
  unfold slice_from.
  destruct (Z.ltb_spec n 0); destruct (Z.ltb_spec (Z.of_nat (length l)) n);
    simpl; split; try discriminate; try (intros [? _]; lia).
  - intros [= <-]. split; [lia | reflexivity].
  - intros [_ ->]. reflexivity.
Qed.

Lemma make_Ok (n : Z) (b : list byte) :
  make n = Ok b -> 0 <= n /\ length b = Z.to_nat n.
Proof.
  unfold make. destruct (Z.ltb_spec n 0); [discriminate|].
  intros [= <-]. split; [lia|]. apply length_replicate.
Qed.

Lemma copy_full {A} (dst src : list A) :
  length dst = length src -> copy dst src = src.
Proof.
  intros H. unfold copy. rewrite H, firstn_all. rewrite <- H, drop_all.
  apply app_nil_r.
Qed.

Lemma make_copy (src : list byte) :
  exists b, make (Z.of_nat (length src)) = Ok b /\ copy b src = src.
Proof.
  unfold make. destruct (Z.ltb_spec (Z.of_nat (length src)) 0); [lia|].
  eexists; split; [reflexivity|].
  apply copy_full. now rewrite length_replicate, Nat2Z.id.
Qed.

(** ** The block decoder *)

Section DecoderFacts.
Context {V : varint.Pkg}.
Import edtd webm spec.

Lemma xiph_frame_strip (data d : list byte) :
  xiph_frame data = Ok d <-> strip_xiph data = Some d.
Proof.
  unfold strip_xiph. induction data as [|x data IH]; simpl.
  - split; discriminate.
  - pose proof (u8_range x).
    destruct (Z.ltb_spec (u8 x) 255); destruct (Z.eqb_spec (u8 x) 255);
      try lia.
    + split; intros [= ->]; reflexivity.
    + exact IH.
Qed.

Lemma ebml_frame_strip (data d : list byte) :
  ebml_frame data = Ok d <-> strip_varint data = Some d.
Proof.
  unfold ebml_frame, strip_varint.
  destruct (varint.Parse data) as [v| |]; simpl; [|split; discriminate..].
  destruct (varint.Size v) as [n| |]; simpl; [|split; discriminate..].
  rewrite slice_from_Ok.
  destruct (Z.leb_spec 0 n); destruct (Z.leb_spec n (Z.of_nat (length data)));
    simpl; split; try discriminate; try (intros [? _]; lia).
  - intros [_ ->]. reflexivity.
  - intros [= <-]. split; [lia | reflexivity].
Qed.

Lemma for_n_iter_opt {S} (f : S -> result S) (g : S -> option S) :
  (forall x y, f x = Ok y <-> g x = Some y) ->
  forall n x y, for_n n f x = Ok y <-> iter_opt n g x = Some y.
Proof.
  intros Hfg. induction n as [|n IH]; intros x y; simpl.
  - split; intros [= ->]; reflexivity.
  - rewrite rbind_Ok. split.
    + intros (s & Hs & Hn). apply Hfg in Hs. rewrite Hs. now apply IH.
    + destruct (g x) as [s|] eqn:E; [|discriminate].
      intros Hn. exists s. split; [now apply Hfg | now apply IH].
Qed.

Lemma slice_from_1 {A} (x : A) (l : list A) : slice_from (x :: l) 1 = Ok l.
Proof. apply (slice_from_nat (x :: l) 1). simpl. lia. Qed.

Lemma slice_from_2 {A} (x y : A) (l : list A) :
  slice_from (x :: y :: l) 2 = Ok l.
Proof. apply (slice_from_nat (x :: y :: l) 2). simpl. lia. Qed.

Lemma lacing_skip (flags : byte) (data1 d : list byte) :
  (if Z.land (Z.shiftr (u8 flags) 4) 3 >? 0 then
     do numLaceFrames <- index data1 0;
     do data <- slice_from data1 1;
     if Z.land (Z.shiftr (u8 flags) 4) 3 =? Xiph then
       for_n (Z.to_nat (u8 numLaceFrames)) xiph_frame data
     else if Z.land (Z.shiftr (u8 flags) 4) 3 =? EBML then
       for_n (Z.to_nat (u8 numLaceFrames)) ebml_frame data
     else Ok data
   else Ok data1) = Ok d
  <->
  (if Z.land (Z.shiftr (u8 flags) 4) 3 =? 0 then Some data1
   else
     match data1 with
     | n :: data2 =>
         if Z.land (Z.shiftr (u8 flags) 4) 3 =? 1
         then iter_opt (Z.to_nat (u8 n)) strip_xiph data2
         else if Z.land (Z.shiftr (u8 flags) 4) 3 =? 3
              then iter_opt (Z.to_nat (u8 n)) strip_varint data2
              else Some data2
     | [] => None
     end) = Some d.
Proof.
  assert (Hl : 0 <= Z.land (Z.shiftr (u8 flags) 4) 3)
    by (apply Z.land_nonneg; right; lia).
  set (lacing := Z.land (Z.shiftr (u8 flags) 4) 3) in *.
  unfold Xiph, EBML.
  destruct (Z.gtb_spec lacing 0); destruct (Z.eqb_spec lacing 0); try lia.
  - destruct data1 as [|cnt data2]; [split; discriminate|].
    cbn [index lookup list_lookup rbind]. rewrite slice_from_1.
    cbn [rbind].
    destruct (lacing =? 1).
    + apply for_n_iter_opt, xiph_frame_strip.
    + destruct (lacing =? 3).
      * apply for_n_iter_opt, ebml_frame_strip.
      * split; intros [= ->]; reflexivity.
  - split; intros [= ->]; reflexivity.
Qed.

(** C3 -- Block keyframe extraction.  Whenever [parseAsBlock] returns a
    block, the payload that remains once the track-number varint, the two
    bytes of timecode, the flags byte and (for a lacing mode other than
    None) the frame-count byte and the lacing preambles are stripped has a
    byte at offset 2, and the block is a keyframe exactly when that byte
    has its 0x01 bit clear.  Conversely, when the track number decodes and
    the remaining payload has a byte at offset 2, [parseAsBlock] returns a
    block, with that track number and that keyframe flag. *)
Theorem parseAsBlock_keyframe (data : list byte) :
  (forall b, parseAsBlock data = Ok b ->
     exists rest x,
       block_remaining data = Some rest /\ rest !! 2%nat = Some x /\
       (Keyframe b = true <-> Z.land (u8 x) 1 = 0)) /\
  (forall rest x t,
     block_remaining data = Some rest -> rest !! 2%nat = Some x ->
     block_track data = Ok t ->
     exists b,
       parseAsBlock data = Ok b /\ TrackNumber b = t /\
       (Keyframe b = true <-> Z.land (u8 x) 1 = 0)).
Proof.
  unfold parseAsBlock, block_remaining, block_track, strip_varint.
  destruct (varint.Parse data) as [v| |]; cbn [rbind];
    [|split; [intros ?|intros ? ? ?]; discriminate..].
  destruct (varint.Uint64 v) as [t| |]; cbn [rbind];
    [|split; [intros ?|intros ? ? ? _ _]; discriminate..].
  destruct (varint.Size v) as [n| |]; cbn [rbind];
    [|split; [intros ?|intros ? ? ?]; discriminate..].
  assert (Hs : slice_from data n =
               if (0 <=? n) && (n <=? Z.of_nat (length data))
               then Ok (drop (Z.to_nat n) data) else Panic).
  { unfold slice_from.
    destruct (Z.ltb_spec n 0); destruct (Z.leb_spec 0 n); try lia;
      destruct (Z.ltb_spec (Z.of_nat (length data)) n);
      destruct (Z.leb_spec n (Z.of_nat (length data))); try lia;
      reflexivity. }
  rewrite Hs. clear Hs.
  destruct ((0 <=? n) && (n <=? Z.of_nat (length data))); cbn [rbind];
    [|split; [intros ?|intros ? ? ?]; discriminate].
  destruct (drop (Z.to_nat n) data) as [|d0 [|d1 [|flags data1]]];
    cbn [index lookup list_lookup rbind];
    [split; [intros ?|intros ? ? ?]; discriminate..|].
  rewrite slice_from_2. cbn [rbind index lookup list_lookup].
  rewrite slice_from_1. cbn [rbind].
  pose proof (lacing_skip flags data1) as Hskip.
  split.
  - intros b Hb. apply rbind_Ok in Hb as (rest & Hrest & Hb).
    apply Hskip in Hrest.
    unfold index in Hb. destruct (rest !! 2%nat) as [x|] eqn:Ex;
      [|discriminate].
    cbn [rbind] in Hb. injection Hb as <-. cbn [Keyframe].
    exists rest, x. split; [exact Hrest|]. split; [exact Ex|].
    apply Z.eqb_eq.
  - intros rest x t' Hrest Hx [= <-].
    apply Hskip in Hrest.
    eexists. split; [|split].
    + apply rbind_Ok. exists rest. split; [exact Hrest|].
      unfold index. rewrite Hx. cbn [rbind]. reflexivity.
    + reflexivity.
    + cbn [Keyframe]. apply Z.eqb_eq.
Qed.

(** C10 -- [AsKeyBlock] on an element that is neither a SimpleBlock nor a
    Block: the answer is track 0, no keyframe and no error, whatever the
    payload of the element is and whether it can be read at all. *)
Theorem AsKeyBlock_other (name : string) (level : Z)
    (payload : result (list byte)) (wire : list byte) :
  name <> "SimpleBlock"%string -> name <> "Block"%string ->
  AsKeyBlock {| Name := name; Level := level; Bytes := payload;
                WriteTo := wire |} = Ok (0, false).
Proof.
  intros H1 H2. unfold AsKeyBlock. cbn [Name].
  apply String.eqb_neq in H1, H2. now rewrite H1, H2.
Qed.

End DecoderFacts.

(** An instance of [parseAsBlock_keyframe]: a Block on track 1 with Xiph
    lacing, two laced frames and the byte 0x0c at offset 2 of what
    remains. *)
Lemma parseAsBlock_keyframe_witness :
  exists b,
    webm.parseAsBlock (V := ebml_varint.pkg)
      [x81; x00; x00; x10; x02; xff; x05; x03; x0a; x0b; x0c] = Ok b /\
    webm.TrackNumber b = 1 /\
    (webm.Keyframe b = true <-> Z.land (u8 x0c) 1 = 0).
Proof.
  apply (proj2 (parseAsBlock_keyframe (V := ebml_varint.pkg)
                  [x81; x00; x00; x10; x02; xff; x05; x03; x0a; x0b; x0c])
           [x0a; x0b; x0c] x0c 1); reflexivity.
Defined.

(** An instance of [AsKeyBlock_other]: a Cluster element whose payload
    cannot be read. *)
Lemma AsKeyBlock_other_witness :
  webm.AsKeyBlock (V := ebml_varint.pkg)
    {| edtd.Name := "Cluster"; edtd.Level := 1; edtd.Bytes := Err io_EOF;
       edtd.WriteTo := [x1f] |}
  = Ok (0, false).
Proof.
  apply (AsKeyBlock_other (V := ebml_varint.pkg)); discriminate.
Defined.

(** ** The keeper *)

Section KeeperFacts.
Context {V : varint.Pkg}.
Import edtd webmkeeper spec.

Ltac krun := cbv [kbind gets modify lift kret resetTracking].

Lemma next_is_Next (p0 : Parser) : next p0 = edtd.Next p0.
Proof.
  unfold next. destruct p0 as [|[el| |] p1]; try reflexivity.
Qed.

Lemma incTrackCount_0 (wk : WebmKeeper) :
  incTrackCount 0 wk =
  (Ok tt,
   if u8 (fst (trackBlockCount wk)) <? 255
   then set_trackBlockCount
          (byte_of_Z (u8 (fst (trackBlockCount wk)) + 1), snd (trackBlockCount wk)) wk
   else wk).
Proof.
  unfold incTrackCount. krun. cbn.
  now destruct (u8 (fst (trackBlockCount wk)) <? 255).
Qed.

Lemma incTrackCount_1 (wk : WebmKeeper) :
  incTrackCount 1 wk =
  (Ok tt,
   if u8 (snd (trackBlockCount wk)) <? 255
   then set_trackBlockCount
          (fst (trackBlockCount wk), byte_of_Z (u8 (snd (trackBlockCount wk)) + 1)) wk
   else wk).
Proof.
  unfold incTrackCount. krun. cbn.
  now destruct (u8 (snd (trackBlockCount wk)) <? 255).
Qed.

Lemma sat_inc_value (c : byte) :
  u8 (if u8 c <? 255 then byte_of_Z (u8 c + 1) else c) = Z.min 255 (u8 c + 1).
Proof.
  pose proof (u8_range c).
  destruct (Z.ltb_spec (u8 c) 255).
  - rewrite u8_byte_of_Z, Z.mod_small; lia.
  - lia.
Qed.

Lemma incTrackCount_spec (wk : WebmKeeper) (i : Z) :
  i = 0 \/ i = 1 ->
  exists wk',
    incTrackCount i wk = (Ok tt, wk') /\
    count_at wk' i = Z.min 255 (count_at wk i + 1) /\
    count_at wk' (1 - i) = count_at wk (1 - i) /\
    trackBlockKeyframe wk' = trackBlockKeyframe wk /\
    body wk' = body wk /\ lastCluster wk' = lastCluster wk /\
    same_frame wk wk'.
Proof.
  intros [-> | ->].
  - rewrite incTrackCount_0. eexists; split; [reflexivity|].
    unfold count_at, same_frame. cbn [Z.eqb Z.sub Z.opp Z.add].
    pose proof (sat_inc_value (fst (trackBlockCount wk))) as Hs.
    destruct (u8 (fst (trackBlockCount wk)) <? 255); cbn; auto 10.
  - rewrite incTrackCount_1. eexists; split; [reflexivity|].
    unfold count_at, same_frame. cbn [Z.eqb Z.sub Z.opp Z.add Z.pos_sub].
    pose proof (sat_inc_value (snd (trackBlockCount wk))) as Hs.
    destruct (u8 (snd (trackBlockCount wk)) <? 255); cbn; auto 10.
Qed.

Lemma is_block_not_Cluster (el : Elem) :
  is_block el = true -> String.eqb (Name el) "Cluster" = false.
Proof.
  unfold is_block. intros H. apply String.eqb_neq. intros E. rewrite E in H.
  discriminate.
Qed.

Lemma hRAP_Cluster (el : Elem) (wk : WebmKeeper) :
  is_Cluster el = true ->
  handleRandomAccessPoint el wk =
  (Ok tt,
   set_trackBlockKeyframe (false, false)
     (set_trackBlockCount (x00, x00) (set_lastCluster (Len (body wk)) wk))).
Proof.
  unfold is_Cluster, handleRandomAccessPoint. intros ->. reflexivity.
Qed.

Lemma hRAP_other (el : Elem) (wk : WebmKeeper) :
  is_Cluster el = false -> is_block el = false ->
  handleRandomAccessPoint el wk = (Ok tt, wk).
Proof.
  unfold is_Cluster, is_block, handleRandomAccessPoint.
  intros -> ->. reflexivity.
Qed.

Lemma hRAP_block_fail (el : Elem) (wk : WebmKeeper) :
  is_block el = true ->
  (forall e, webm.AsKeyBlock el = Err e ->
     handleRandomAccessPoint el wk = (Err e, wk)) /\
  (webm.AsKeyBlock el = Panic ->
     handleRandomAccessPoint el wk = (Panic, wk)) /\
  (forall t kf, webm.AsKeyBlock el = Ok (t, kf) -> t < 1 \/ t > 2 ->
     handleRandomAccessPoint el wk = (Err (Errorf_impossible_track t), wk)).
Proof.
  intros Hb. unfold handleRandomAccessPoint.
  rewrite (is_block_not_Cluster el Hb). unfold is_block in Hb. rewrite Hb.
  krun. repeat split.
  - intros e ->. reflexivity.
  - intros ->. reflexivity.
  - intros t kf -> Ht. cbn [fst snd].
    destruct (Z.gtb_spec t 2); destruct (Z.ltb_spec t 1); try lia;
      reflexivity.
Qed.

Lemma cut_body (wk0 : WebmKeeper) :
  offset_ok wk0 ->
  match make (Len (body wk0) - lastCluster wk0) with
  | Ok a0 =>
      match slice_from (body wk0) (lastCluster wk0) with
      | Ok a1 =>
          (Ok tt,
           set_lastCluster 0
             (set_body (body (set_body [] wk0) ++ copy a0 a1)
                (set_body [] wk0)))
      | Err err => (Err err, wk0)
      | Panic => (Panic, wk0)
      end
  | Err err => (Err err, wk0)
  | Panic => (Panic, wk0)
  end =
  (Ok tt,
   set_lastCluster 0
     (set_body (drop (Z.to_nat (lastCluster wk0)) (body wk0)) wk0)).
Proof.
  unfold offset_ok, Len. intros Hoff.
  destruct (make _) as [a0| |] eqn:Hm;
    [|unfold make in Hm;
      destruct (Z.ltb_spec (Z.of_nat (length (body wk0)) - lastCluster wk0) 0);
      [lia|discriminate]..].
  apply make_Ok in Hm as [_ Hlen].
  destruct (slice_from _ _) as [a1| |] eqn:Hs;
    [|unfold slice_from in Hs;
      destruct (Z.ltb_spec (lastCluster wk0) 0); [lia|];
      destruct (Z.ltb_spec (Z.of_nat (length (body wk0))) (lastCluster wk0));
      [lia|discriminate]..].
  apply slice_from_Ok in Hs as [_ ->].
  rewrite copy_full; [reflexivity|].
  rewrite Hlen, length_drop. lia.
Qed.

Lemma hRAP_block_ok (el : Elem) (wk : WebmKeeper) (t : Z) (kf : bool) :
  is_block el = true -> webm.AsKeyBlock el = Ok (t, kf) ->
  t = 1 \/ t = 2 -> offset_ok wk ->
  exists wk',
    handleRandomAccessPoint el wk = (Ok tt, wk') /\
    rap_of wk' = rap_rule (EvBlock t kf) (rap_of wk) /\
    same_frame wk wk'.
Proof.
  intros Hb Hk Ht Hoff. unfold handleRandomAccessPoint.
  rewrite (is_block_not_Cluster el Hb). unfold is_block in Hb. rewrite Hb.
  krun. rewrite Hk. cbn [fst snd].
  destruct wk as [p0 h0 b0 e0 lc [c0 c1] [k0 k1]].
  unfold offset_ok in Hoff. cbn [lastCluster body] in Hoff.
  pose proof (sat_inc_value c0) as Hc0. pose proof (sat_inc_value c1) as Hc1.
  unfold rap_rule, rap_of, same_frame.
  destruct Ht as [-> | ->];
    [change (1 - 1) with 0; change (1 >? 2) with false;
     change (1 <? 1) with false
    |change (2 - 1) with 1; change (2 >? 2) with false;
     change (2 <? 1) with false];
    cbn [orb]; [rewrite incTrackCount_0 | rewrite incTrackCount_1];
    cbn [trackBlockCount trackBlockKeyframe lastCluster body fst snd
         rs_body last_cluster_offset track_block_count track_block_keyframe
         Z.eqb Pos.eqb];
    [rewrite <- Hc0 | rewrite <- Hc1]; clear Hc0 Hc1.
  - destruct (u8 c0 <? 255); destruct kf;
      cbn -[u8 byte_of_Z make slice_from copy drop Len];
      rewrite ?orb_true_r, ?orb_false_r;
      match goal with
      | |- context [if ?c then _ else _] => destruct c eqn:Hc
      end;
      try (rewrite cut_body by exact Hoff);
      eexists; (split; [reflexivity|]); cbn; auto.
  - destruct (u8 c1 <? 255); destruct kf;
      cbn -[u8 byte_of_Z make slice_from copy drop Len];
      rewrite ?orb_true_r, ?orb_false_r;
      match goal with
      | |- context [if ?c then _ else _] => destruct c eqn:Hc
      end;
      try (rewrite cut_body by exact Hoff);
      eexists; (split; [reflexivity|]); cbn; auto.
Qed.

Lemma Next_step (wk : WebmKeeper) :
  Next wk =
  match edtd.Next (p wk) with
  | (Ok el, p') =>
      match handleRandomAccessPoint el (set_p p' wk) with
      | (Ok _, wk1) =>
          (Ok (WriteTo el),
           set_body (body wk1 ++ WriteTo el) (set_elemBuf (WriteTo el) wk1))
      | (Err err, wk1) => (Err err, wk1)
      | (Panic, wk1) => (Panic, wk1)
      end
  | (Err err, p') => (Err err, set_p p' wk)
  | (Panic, p') => (Panic, set_p p' wk)
  end.
Proof.
  unfold Next, next_elem. krun. rewrite next_is_Next.
  destruct (edtd.Next (p wk)) as [[el| |] p']; try reflexivity.
  destruct (handleRandomAccessPoint el (set_p p' wk)) as [[[]| |] wk1];
    try reflexivity.
  cbn [elemBuf set_elemBuf app].
  destruct (make_copy (WriteTo el)) as (b & Hb & Hc).
  unfold Len. rewrite Hb, Hc. reflexivity.
Qed.

(** Properties of the keeper that every step of a method maintains. *)
Lemma kbind_keeps {A B} (P : WebmKeeper -> Prop) (m : K A) (k : A -> K B) :
  (forall wk, P wk -> P (snd (m wk))) ->
  (forall a wk, P wk -> P (snd (k a wk))) ->
  forall wk, P wk -> P (snd (kbind m k wk)).
Proof.
  intros Hm Hk wk HP. unfold kbind. specialize (Hm wk HP).
  destruct (m wk) as [[a| |] wk']; cbn [snd] in *; auto.
Qed.

Lemma incTrackCount_keeps (P : WebmKeeper -> Prop) (i : Z) :
  (forall wk, P wk -> u8 (fst (trackBlockCount wk)) < 255 ->
     P (set_trackBlockCount
          (byte_of_Z (u8 (fst (trackBlockCount wk)) + 1),
           snd (trackBlockCount wk)) wk)) ->
  (forall wk, P wk -> u8 (snd (trackBlockCount wk)) < 255 ->
     P (set_trackBlockCount
          (fst (trackBlockCount wk),
           byte_of_Z (u8 (snd (trackBlockCount wk)) + 1)) wk)) ->
  forall wk, P wk -> P (snd (incTrackCount i wk)).
Proof.
  intros H0 H1 wk HP. unfold incTrackCount, get2, set2. krun.
  destruct (i =? 0); [|destruct (i =? 1)]; cbn [snd fst];
    try exact HP;
    match goal with
    | |- context [if ?a <? ?b then _ else _] => destruct (Z.ltb_spec a b)
    end; cbn [snd]; auto.
Qed.

Lemma hRAP_keeps (P : WebmKeeper -> Prop) (el : Elem) :
  (forall x wk, P wk -> P (set_lastCluster x wk)) ->
  (forall x wk, P wk -> P (set_body x wk)) ->
  (forall x wk, P wk -> P (set_trackBlockKeyframe x wk)) ->
  (forall i wk, P wk -> P (snd (incTrackCount i wk))) ->
  (is_Cluster el = true ->
   forall wk, P wk -> P (set_trackBlockCount (x00, x00) wk)) ->
  forall wk, P wk -> P (snd (handleRandomAccessPoint el wk)).
Proof.
  intros Hlc Hbody Hkf Hinc Hreset wk HP.
  unfold handleRandomAccessPoint. fold (is_Cluster el).
  destruct (is_Cluster el) eqn:Ec.
  - cbn. apply Hkf, Hreset, Hlc; auto.
  - destruct (_ || _); [|exact HP].
    revert wk HP. apply kbind_keeps; [auto|].
    intros [t kf] wk HP. cbn [fst snd].
    destruct (_ || _); [exact HP|].
    revert wk HP. apply kbind_keeps; [apply Hinc|]. intros _.
    apply kbind_keeps.
    { destruct kf; [|auto]. intros wk HP. krun.
      destruct (set2 _ _ _); cbn [snd]; auto. }
    intros _ wk HP. krun.
    destruct (_ && _); [|exact HP].
    destruct (make _); [|exact HP..].
    destruct (slice_from _ _); [|exact HP..].
    cbn [snd]. auto.
Qed.

Lemma Next_keeps (P : WebmKeeper -> Prop) (wk : WebmKeeper) :
  (forall x w, P w -> P (set_p x w)) ->
  (forall x w, P w -> P (set_elemBuf x w)) ->
  (forall x w, P w -> P (set_lastCluster x w)) ->
  (forall x w, P w -> P (set_body x w)) ->
  (forall x w, P w -> P (set_trackBlockKeyframe x w)) ->
  (forall i w, P w -> P (snd (incTrackCount i w))) ->
  (forall el p', edtd.Next (p wk) = (Ok el, p') -> is_Cluster el = true ->
   forall w, P w -> P (set_trackBlockCount (x00, x00) w)) ->
  P wk -> P (snd (Next wk)).
Proof.
  intros Hp He Hlc Hbody Hkf Hinc Hreset HP. rewrite Next_step.
  destruct (edtd.Next (p wk)) as [[el| |] p'] eqn:En; cbn [snd]; auto.
  assert (HP' : P (snd (handleRandomAccessPoint el (set_p p' wk))))
    by (apply hRAP_keeps; eauto).
  destruct (handleRandomAccessPoint el (set_p p' wk)) as [[[]| |] wk1];
    cbn [snd] in *; auto.
Qed.

Lemma is_block_name (el : Elem) :
  is_block el = true <->
  Name el = "SimpleBlock"%string \/ Name el = "Block"%string.
Proof.
  unfold is_block. rewrite orb_true_iff, !String.eqb_eq. reflexivity.
Qed.

Lemma is_Cluster_name (el : Elem) :
  is_Cluster el = true <-> Name el = "Cluster"%string.
Proof. apply String.eqb_eq. Qed.

(** C1 -- the random-access-point rule.  [handleRandomAccessPoint] acts on
    the body, the offset of the last Cluster, the block counts and the
    keyframe flags as the rule of the design document says ([rap_rule]),
    and on nothing else: a Cluster records the body length as the offset
    and resets the tracking; a SimpleBlock or Block of track 1 or 2 bumps
    the saturating count of its track, notes a keyframe and, exactly when
    both counts are 1 and both flags are set, cuts the body down to its
    suffix from the offset and zeroes the offset; any other element
    changes nothing.  [Next] applies the rule first and appends the
    element to the body afterwards.  The block case is stated for keepers
    whose offset lies within the body, which [offset_ok_New] and
    [offset_ok_Next] show every keeper to be. *)
Theorem random_access_point_rule (wk : WebmKeeper) (el : Elem) :
  (Name el = "Cluster"%string ->
   exists wk',
     handleRandomAccessPoint el wk = (Ok tt, wk') /\
     rap_of wk' = rap_rule EvCluster (rap_of wk) /\ same_frame wk wk') /\
  (Name el = "SimpleBlock"%string \/ Name el = "Block"%string ->
   forall t kf,
     webm.AsKeyBlock el = Ok (t, kf) -> t = 1 \/ t = 2 -> offset_ok wk ->
     exists wk',
       handleRandomAccessPoint el wk = (Ok tt, wk') /\
       rap_of wk' = rap_rule (EvBlock t kf) (rap_of wk) /\
       same_frame wk wk') /\
  (Name el <> "Cluster"%string -> Name el <> "SimpleBlock"%string ->
   Name el <> "Block"%string ->
   handleRandomAccessPoint el wk = (Ok tt, wk) /\
   rap_of wk = rap_rule EvOther (rap_of wk)) /\
  (forall p' wk1,
     next (p wk) = (Ok el, p') ->
     handleRandomAccessPoint el (set_p p' wk) = (Ok tt, wk1) ->
     Next wk =
     (Ok (WriteTo el),
      set_body (body wk1 ++ WriteTo el) (set_elemBuf (WriteTo el) wk1))).
Proof.
  repeat split.
  - intros Hn. apply is_Cluster_name in Hn. rewrite hRAP_Cluster by exact Hn.
    eexists; split; [reflexivity|]. repeat split.
  - intros Hn t kf Hk Ht Hoff. apply is_block_name in Hn.
    now apply hRAP_block_ok.
  - apply hRAP_other.
    + apply String.eqb_neq. assumption.
    + unfold is_block. apply orb_false_iff.
      split; apply String.eqb_neq; assumption.
  - intros p' wk1 Hn Hh. rewrite Next_step. rewrite next_is_Next in Hn.
    rewrite Hn, Hh. reflexivity.
Qed.

Lemma hRAP_block_no_Err (el : Elem) (wk : WebmKeeper) (t : Z) (kf : bool)
    (e : goerr) :
  is_block el = true -> webm.AsKeyBlock el = Ok (t, kf) ->
  t = 1 \/ t = 2 ->
  fst (handleRandomAccessPoint el wk) <> Err e.
Proof.
  intros Hb Hk Ht. unfold handleRandomAccessPoint.
  rewrite (is_block_not_Cluster el Hb). unfold is_block in Hb. rewrite Hb.
  krun. rewrite Hk. cbn [fst snd].
  destruct wk as [p0 h0 b0 e0 lc [c0 c1] [k0 k1]].
  destruct Ht as [-> | ->];
    [change (1 - 1) with 0; change (1 >? 2) with false;
     change (1 <? 1) with false
    |change (2 - 1) with 1; change (2 >? 2) with false;
     change (2 <? 1) with false];
    cbn [orb]; [rewrite incTrackCount_0 | rewrite incTrackCount_1];
    cbn [trackBlockCount fst snd];
    match goal with
    | |- context [if ?a <? ?b then _ else _] => destruct (a <? b)
    end;
    destruct kf; cbn -[u8 byte_of_Z make slice_from copy drop Len];
    match goal with
    | |- context [if ?c then _ else _] => destruct c
    end; try discriminate;
    unfold make, slice_from;
    repeat match goal with
           | |- context [if ?c then _ else _] => destruct c
           end; discriminate.
Qed.

(** C5 -- ImpossibleTrack, with atomicity.  Let the next element be a
    SimpleBlock or Block whose payload decodes to track [t].  Then [Next]
    returns an error exactly when [t < 1] or [t > 2]; that error is the
    impossible-track error, and it leaves header, body, offset and
    tracking as they were.  For a track 1 or 2, on a keeper whose offset
    lies within its body, [Next] returns the bytes of the element. *)
Theorem impossible_track_rejected (wk : WebmKeeper) (el : Elem)
    (p' : Parser) (t : Z) (kf : bool) :
  next (p wk) = (Ok el, p') ->
  Name el = "SimpleBlock"%string \/ Name el = "Block"%string ->
  webm.AsKeyBlock el = Ok (t, kf) ->
  ((exists e, fst (Next wk) = Err e) <-> (t < 1 \/ t > 2)) /\
  (t < 1 \/ t > 2 ->
   fst (Next wk) = Err (Errorf_impossible_track t) /\
   header (snd (Next wk)) = header wk /\
   body (snd (Next wk)) = body wk /\
   rap_of (snd (Next wk)) = rap_of wk) /\
  (t = 1 \/ t = 2 -> offset_ok wk -> fst (Next wk) = Ok (WriteTo el)).
Proof.
  intros Hn Hname Hk. apply is_block_name in Hname.
  rewrite next_is_Next in Hn. rewrite Next_step, Hn.
  assert (Hbad : t < 1 \/ t > 2 ->
            handleRandomAccessPoint el (set_p p' wk)
            = (Err (Errorf_impossible_track t), set_p p' wk)).
  { intros Ht.
    destruct (hRAP_block_fail el (set_p p' wk) Hname) as (_ & _ & H).
    now apply (H t kf). }
  split; [split|split].
  - intros [e He]. destruct (Z.lt_ge_cases t 1) as [?|H1]; [now left|].
    destruct (Z.lt_ge_cases 2 t) as [?|H2]; [right; lia|].
    exfalso. assert (Ht : t = 1 \/ t = 2) by lia.
    pose proof (hRAP_block_no_Err el (set_p p' wk) t kf e Hname Hk Ht) as Hne.
    destruct (handleRandomAccessPoint el (set_p p' wk)) as [[[]| |] wk1];
      cbn [fst] in *; congruence.
  - intros Ht. rewrite (Hbad Ht). eexists. reflexivity.
  - intros Ht. rewrite (Hbad Ht). repeat split.
  - intros Ht Hoff.
    destruct (hRAP_block_ok el (set_p p' wk) t kf Hname Hk Ht Hoff)
      as (wk' & Hh & _).
    rewrite Hh. reflexivity.
Qed.

Lemma header_incTrackCount (h : list byte) (i : Z) (w : WebmKeeper) :
  header w = h -> header (snd (incTrackCount i w)) = h.
Proof. apply incTrackCount_keeps; auto. Qed.

Lemma header_Next (wk : WebmKeeper) : header (snd (Next wk)) = header wk.
Proof.
  apply (Next_keeps (fun w => header w = header wk)); auto.
  intros i w. apply header_incTrackCount.
Qed.

Lemma header_hRAP (el : Elem) (wk : WebmKeeper) :
  header (snd (handleRandomAccessPoint el wk)) = header wk.
Proof.
  apply (hRAP_keeps (fun w => header w = header wk)); auto.
  intros i w. apply header_incTrackCount.
Qed.

(** C6 -- header immutability.  Whatever sequence of [Next], [Bootstrap]
    and [handleRandomAccessPoint] calls is made on a keeper, and whatever
    they return, the header stays what it was; in particular it stays what
    [New] left. *)
Theorem header_immutable (ops : list keeper_op) (wk : WebmKeeper) :
  header (fold_left (fun w o => run_keeper_op o w) ops wk) = header wk.
Proof.
  revert wk. induction ops as [|o ops IH]; intros wk; [reflexivity|].
  cbn [fold_left]. rewrite IH.
  destruct o as [|w|el]; cbn [run_keeper_op].
  - apply header_Next.
  - unfold Bootstrap.
    destruct (io.Write (header wk) w) as [[[]| |] w1]; try reflexivity.
    destruct (io.Write (body wk) w1) as [[[]| |] w2]; reflexivity.
  - apply header_hRAP.
Qed.

Lemma p_Next (wk : WebmKeeper) : p (snd (Next wk)) = tl (p wk).
Proof.
  rewrite Next_step.
  destruct (edtd.Next (p wk)) as [r p'] eqn:En.
  assert (Hp' : p' = tl (p wk)).
  { destruct (p wk); cbn in En; injection En as _ <-; reflexivity. }
  destruct r as [el| |]; cbn [snd p set_p]; auto.
  assert (H : p (snd (handleRandomAccessPoint el (set_p p' wk))) = p').
  { apply (hRAP_keeps (fun w => p w = p')); auto.
    intros i w. apply incTrackCount_keeps; auto. }
  destruct (handleRandomAccessPoint el (set_p p' wk)) as [[[]| |] wk1];
    cbn [snd p set_body set_elemBuf] in *; congruence.
Qed.

Lemma p_Next_any (n : nat) (wk : WebmKeeper) :
  p (Next_any n wk) = drop n (p wk).
Proof.
  induction n as [|n IH]; cbn [Next_any]; [reflexivity|].
  rewrite p_Next, IH. clear IH.
  revert n. induction (p wk) as [|x l IH]; intros [|n]; cbn; auto.
Qed.

Lemma count_255_incTrackCount (i j : Z) (w : WebmKeeper) :
  i = 0 \/ i = 1 ->
  count_at w i = 255 -> count_at (snd (incTrackCount j w)) i = 255.
Proof.
  intros Hi. apply (incTrackCount_keeps (fun w => count_at w i = 255));
    clear w; intros w Hw Hlt; unfold count_at in *;
    cbn [trackBlockCount set_trackBlockCount fst snd];
    destruct Hi as [-> | ->]; cbn [Z.eqb] in *; auto; lia.
Qed.

(** C7 -- the saturating counter.  For a track index 0 or 1,
    [incTrackCount] returns without error, moves the count of that track
    from [c] to [min 255 (c + 1)] and leaves everything else alone; at 255
    it changes nothing at all, so the count never wraps to zero.  And a
    count that has reached 255 is still 255 after any number of [Next]
    calls, as long as no Cluster element is among the elements they
    consume. *)
Theorem saturating_counter (wk : WebmKeeper) (i : Z) :
  i = 0 \/ i = 1 ->
  (exists wk',
     incTrackCount i wk = (Ok tt, wk') /\
     count_at wk' i = Z.min 255 (count_at wk i + 1) /\
     count_at wk' (1 - i) = count_at wk (1 - i) /\
     trackBlockKeyframe wk' = trackBlockKeyframe wk /\
     body wk' = body wk /\ lastCluster wk' = lastCluster wk /\
     same_frame wk wk') /\
  (count_at wk i = 255 -> incTrackCount i wk = (Ok tt, wk)) /\
  (forall n,
     count_at wk i = 255 ->
     (forall k el, (k < n)%nat -> p wk !! k = Some (Ok el) ->
                   Name el <> "Cluster"%string) ->
     count_at (Next_any n wk) i = 255).
Proof.
  intros Hi. split; [now apply incTrackCount_spec|]. split.
  - unfold count_at. destruct Hi as [-> | ->]; cbn [Z.eqb]; intros H;
      [rewrite incTrackCount_0 | rewrite incTrackCount_1];
      rewrite H; reflexivity.
  - induction n as [|n IH]; intros H255 Hnc; cbn [Next_any]; [exact H255|].
    assert (IH' : count_at (Next_any n wk) i = 255)
      by (apply IH; [exact H255 | intros k el Hk; apply Hnc; lia]).
    apply (Next_keeps (fun w => count_at w i = 255)); auto.
    + intros j w. now apply count_255_incTrackCount.
    + intros el p' En Hc. exfalso.
      rewrite p_Next_any in En.
      apply is_Cluster_name in Hc. revert Hc. apply (Hnc n); [lia|].
      assert (H0 : drop n (p wk) !! 0%nat = Some (Ok el)).
      { destruct (drop n (p wk)); cbn in En; [discriminate|].
        injection En as -> _. reflexivity. }
      rewrite lookup_drop, Nat.add_0_r in H0. exact H0.
Qed.

Lemma New_loop_spec (pre : list Elem) :
  Forall (fun el => is_Cluster el = false) pre ->
  forall fuel h b tail,
    (length pre < fuel)%nat ->
    match tail with
    | [] => True
    | Ok c :: _ => is_Cluster c = true
    | _ => True
    end ->
    New_loop fuel (map Ok pre ++ tail) h b =
    Some match tail with
         | [] => Err io_EOF
         | Ok c :: rest =>
             Ok {| p := rest; header := h ++ wire pre; body := b ++ WriteTo c;
                   elemBuf := []; lastCluster := 0;
                   trackBlockCount := (x00, x00);
                   trackBlockKeyframe := (false, false) |}
         | Err e :: _ => Err e
         | Panic :: _ => Panic
         end.
Proof.
  induction 1 as [|el pre Hel Hpre IH]; intros fuel h b tail Hfuel Htail.
  - destruct fuel as [|fuel]; [cbn in Hfuel; lia|].
    cbn [map app New_loop]. rewrite next_is_Next. unfold wire.
    cbn [map concat]. rewrite app_nil_r.
    destruct tail as [|[c| |] rest]; cbn [edtd.Next]; try reflexivity.
    fold (is_Cluster c). rewrite Htail. reflexivity.
  - destruct fuel as [|fuel]; [cbn in Hfuel; lia|].
    cbn [map app New_loop]. rewrite next_is_Next. cbn [edtd.Next].
    fold (is_Cluster el). rewrite Hel.
    rewrite IH by (cbn in Hfuel; lia || exact Htail).
    unfold wire. cbn [map concat]. rewrite <- !app_assoc. reflexivity.
Qed.

(** C4 -- keeper construction.  When the source emits the elements [pre],
    none of them a Cluster, and then a Cluster [c], [New] returns a keeper
    whose header is the serialization of [pre], in order, whose body is
    the serialization of [c], and whose parser is what follows [c].  When
    the source is exhausted after [pre], or fails after [pre], [New]
    returns that error and no keeper. *)
Theorem New_splits_at_first_Cluster (pre : list Elem) (c : Elem)
    (rest : Parser) (e : goerr) :
  Forall (fun el => Name el <> "Cluster"%string) pre ->
  (Name c = "Cluster"%string ->
   New (map Ok pre ++ Ok c :: rest) =
   Ok {| p := rest; header := wire pre; body := WriteTo c; elemBuf := [];
         lastCluster := 0; trackBlockCount := (x00, x00);
         trackBlockKeyframe := (false, false) |}) /\
  New (map Ok pre) = Err io_EOF /\
  New (map Ok pre ++ Err e :: rest) = Err e.
Proof.
  intros Hpre.
  assert (Hpre' : Forall (fun el => is_Cluster el = false) pre).
  { eapply Forall_impl; [exact Hpre|]. intros el Hn.
    apply String.eqb_neq. exact Hn. }
  unfold New. repeat split.
  - intros Hc. apply is_Cluster_name in Hc.
    rewrite (New_loop_spec pre Hpre' _ [] [] (Ok c :: rest)); auto.
    rewrite length_app, length_map. cbn. lia.
  - rewrite <- (app_nil_r (map Ok pre)) at 2.
    rewrite (New_loop_spec pre Hpre' _ [] [] []); auto.
    rewrite ?app_nil_r, ?length_app, length_map. cbn. lia.
  - rewrite (New_loop_spec pre Hpre' _ [] [] (Err e :: rest)); auto.
    rewrite length_app, length_map. cbn. lia.
Qed.

(** ** The bootstrap invariant *)

Lemma wire_app (a b : list Elem) : wire (a ++ b) = wire a ++ wire b.
Proof. unfold wire. now rewrite map_app, concat_app. Qed.

Lemma wire_snoc (a : list Elem) (el : Elem) :
  wire (a ++ [el]) = wire a ++ WriteTo el.
Proof. rewrite wire_app. unfold wire. cbn. now rewrite app_nil_r. Qed.

Lemma blocks_of_app (t : Z) (a b : list Elem) :
  blocks_of t (a ++ b) = blocks_of t a ++ blocks_of t b.
Proof.
  induction a as [|el a IH]; cbn [app blocks_of]; [reflexivity|].
  destruct (is_block el); [|exact IH].
  destruct (webm.AsKeyBlock el) as [[t' kf]| |]; try exact IH.
  destruct (t' =? t); [|exact IH]. cbn. now rewrite IH.
Qed.

Lemma blocks_of_block (t t' : Z) (kf : bool) (el : Elem) :
  is_block el = true -> webm.AsKeyBlock el = Ok (t', kf) ->
  blocks_of t [el] = if t' =? t then [kf] else [].
Proof. intros Hb Hk. cbn. rewrite Hb, Hk. reflexivity. Qed.

Lemma blocks_of_other (t : Z) (el : Elem) :
  is_block el = false -> blocks_of t [el] = [].
Proof. intros Hb. cbn. now rewrite Hb. Qed.

Lemma cluster_body_id (cur : list Elem) :
  Forall (fun el => is_Cluster el = false) cur -> cluster_body cur = cur.
Proof.
  induction 1 as [|el cur Hel _ IH]; cbn; [reflexivity|].
  now rewrite Hel, IH.
Qed.

Lemma cluster_body_snoc (rest : list Elem) (el : Elem) :
  exists l, cluster_body (rest ++ [el]) = cluster_body rest ++ l.
Proof.
  induction rest as [|x rest [l IH]]; cbn.
  - eexists. reflexivity.
  - destruct (is_Cluster x).
    + exists []. reflexivity.
    + exists l. cbn. now rewrite IH.
Qed.

Lemma keeper_inv_offset (wk : WebmKeeper) (els1 : list Elem) (c : Elem)
    (cur : list Elem) :
  keeper_inv wk els1 c cur -> offset_ok wk.
Proof.
  intros (Hb & Hl & _). unfold offset_ok.
  rewrite Hb, Hl, wire_app, length_app. lia.
Qed.

Lemma keyed_of_all_four (wk : WebmKeeper) (els1 : list Elem) (c : Elem)
    (cur : list Elem) :
  keeper_inv wk els1 c cur -> all_four wk = true ->
  starts_at_keyed_cluster (els1 ++ c :: cur).
Proof.
  intros (_ & _ & Hc & Hcur & (Hn0 & Hn1 & Hk0 & Hk1) & Hfour & _) H4.
  rewrite (Hfour H4). cbn [app starts_at_keyed_cluster].
  rewrite (cluster_body_id cur Hcur). split; [exact Hc|].
  unfold all_four in H4. rewrite !andb_true_iff, !Z.eqb_eq in H4.
  destruct H4 as [[[E0 E1] F0] F1].
  rewrite Hn0 in E0. rewrite Hn1 in E1. rewrite Hk0 in F0. rewrite Hk1 in F1.
  unfold first_block_of. split.
  - destruct (blocks_of 1 cur) as [|x [|y l]]; cbn in *; try lia.
    rewrite orb_false_r in F0. unfold id in F0. now subst.
  - destruct (blocks_of 2 cur) as [|x [|y l]]; cbn in *; try lia.
    rewrite orb_false_r in F1. unfold id in F1. now subst.
Qed.

Lemma keyed_snoc (els : list Elem) (el : Elem) :
  starts_at_keyed_cluster els -> starts_at_keyed_cluster (els ++ [el]).
Proof.
  destruct els as [|c rest]; [intros []|].
  cbn [app starts_at_keyed_cluster]. intros (Hc & H1 & H2).
  destruct (cluster_body_snoc rest el) as [l ->].
  unfold first_block_of in *. rewrite !blocks_of_app.
  split; [exact Hc|]. split.
  - destruct (blocks_of 1 (cluster_body rest)); [discriminate|exact H1].
  - destruct (blocks_of 2 (cluster_body rest)); [discriminate|exact H2].
Qed.

Lemma keeper_inv_Next (wk wk' : WebmKeeper) (b : list byte)
    (els1 : list Elem) (c : Elem) (cur : list Elem) :
  keeper_inv wk els1 c cur -> Next wk = (Ok b, wk') ->
  exists el els1' c' cur',
    p wk = Ok el :: p wk' /\
    header wk' = header wk /\
    keeper_inv wk' els1' c' cur' /\
    (all_four wk' = true \/
     els1' ++ c' :: cur' = (els1 ++ c :: cur) ++ [el]) /\
    (exists dropped,
       (els1 ++ c :: cur) ++ [el] = dropped ++ els1' ++ c' :: cur' /\
       match dropped with [] => True | c1 :: _ => is_Cluster c1 = true end).
Proof.
  intros Hinv HN. pose proof (p_Next wk) as Hp.
  pose proof (header_Next wk) as Hh. rewrite HN in Hp, Hh. cbn [snd] in *.
  rewrite Next_step in HN.
  destruct (p wk) as [|[el| |] p1] eqn:Ep; cbn [edtd.Next] in HN;
    try discriminate.
  cbn [tl] in Hp. exists el. rewrite <- Hp. clear Hp.
  pose proof (keeper_inv_offset _ _ _ _ Hinv) as Hoff.
  assert (Hoff1 : offset_ok (set_p p1 wk)) by exact Hoff.
  destruct (is_Cluster el) eqn:Ec.
  - rewrite hRAP_Cluster in HN by exact Ec. injection HN as _ <-.
    exists (els1 ++ c :: cur), el, [].
    clear Hh.
    split; [reflexivity|]. split; [reflexivity|].
    destruct Hinv as (Hb & Hl & Hc & Hcur & Htr & Hfour & Hlead).
    split; [|split; [right; reflexivity|exists []; split; [reflexivity|exact I]]].
    unfold keeper_inv, tracks, all_four, count_at, keyframe_at.
    cbn [body lastCluster trackBlockCount trackBlockKeyframe set_body
         set_elemBuf set_trackBlockKeyframe set_trackBlockCount
         set_lastCluster set_p fst snd Z.eqb blocks_of length existsb].
    repeat split; auto.
    + rewrite Hb, <- wire_snoc, <- app_assoc. reflexivity.
    + unfold Len. now rewrite Hb.
    + discriminate.
    + destruct els1; [exact Hc | exact Hlead].
  - destruct (is_block el) eqn:Eb.
    + destruct (hRAP_block_fail el (set_p p1 wk) Eb) as (Hf1 & Hf2 & Hf3).
      destruct (webm.AsKeyBlock el) as [[t kf]| |] eqn:Ek;
        [|rewrite (Hf1 _ eq_refl) in HN; discriminate
         |rewrite (Hf2 eq_refl) in HN; discriminate].
      destruct (Z.lt_ge_cases t 1) as [Hlt|Hge];
        [rewrite (Hf3 t kf eq_refl) in HN by (left; exact Hlt); discriminate|].
      destruct (Z.lt_ge_cases 2 t) as [Hgt|Hle];
        [rewrite (Hf3 t kf eq_refl) in HN by (right; lia); discriminate|].
      assert (Ht : t = 1 \/ t = 2) by lia. clear Hf1 Hf2 Hf3 Hge Hle.
      destruct (hRAP_block_ok el (set_p p1 wk) t kf Eb Ek Ht Hoff1)
        as (wk1 & Hh1 & Hr & Hfr).
      rewrite Hh1 in HN. injection HN as _ <-. clear Hh Hh1.
      destruct Hinv as (Hb & Hl & Hc & Hcur & Htr & Hfour & Hlead).
      destruct wk as [p0 h0 b0 e0 lc [c0 c1] [k0 k1]].
      destruct wk1 as [p2 h2 b2 e2 lc2 [c0' c1'] [k0' k1']].
      unfold same_frame, tracks, all_four, count_at, keyframe_at, offset_ok,
        rap_of, rap_rule in *.
      cbn [body lastCluster trackBlockCount trackBlockKeyframe set_body
           set_elemBuf set_p fst snd p header elemBuf Z.eqb
           rs_body last_cluster_offset track_block_count
           track_block_keyframe] in *.
      destruct Htr as (Hn0 & Hn1 & Hk0 & Hk1).
      set (cnt := if t =? 1
                  then (255 `min` (u8 c0 + 1), u8 c1)
                  else (u8 c0, 255 `min` (u8 c1 + 1))) in Hr.
      set (kfs := if t =? 1 then (k0 || kf, k1) else (k0, k1 || kf)) in Hr.
      assert (Htr' :
        fst cnt = 255 `min` Z.of_nat (length (blocks_of 1 (cur ++ [el]))) /\
        snd cnt = 255 `min` Z.of_nat (length (blocks_of 2 (cur ++ [el]))) /\
        fst kfs = existsb id (blocks_of 1 (cur ++ [el])) /\
        snd kfs = existsb id (blocks_of 2 (cur ++ [el]))).
      { rewrite !blocks_of_app, !(blocks_of_block _ t kf el Eb Ek).
        rewrite !length_app, !existsb_app. subst cnt kfs.
        destruct Ht as [-> | ->]; cbn [Z.eqb Pos.eqb fst snd length existsb];
          unfold id at 2; rewrite ?orb_false_r, ?Nat.add_0_r;
          repeat split; auto; try lia; subst k0 k1; reflexivity. }
      clearbody cnt kfs. destruct Htr' as (Hn0' & Hn1' & Hk0' & Hk1').
      destruct ((fst cnt =? 1) && (snd cnt =? 1) && fst kfs && snd kfs)
        eqn:Hcond; injection Hr as -> -> Hcnt Hkfs;
        rewrite <- Hcnt in *; rewrite <- Hkfs in *; cbn [fst snd] in *.
      * exists [], c, (cur ++ [el]).
        split; [reflexivity|]. split; [apply Hfr|].
        split; [|split; [left; exact Hcond|exists els1; split; [now rewrite <- app_assoc|exact Hlead]]].
        unfold keeper_inv, tracks, all_four, count_at, keyframe_at.
        cbn [body lastCluster trackBlockCount trackBlockKeyframe set_body
             set_elemBuf fst snd Z.eqb app].
        repeat split; auto.
        -- rewrite Hb, Hl, wire_app, Nat2Z.id, drop_app_length.
           rewrite <- wire_snoc. reflexivity.
        -- apply Forall_app. split; [exact Hcur|]. now constructor.
      * exists els1, c, (cur ++ [el]).
        split; [reflexivity|]. split; [apply Hfr|].
        split; [|split; [right; now rewrite <- app_assoc
                        |exists []; split; [now rewrite <- app_assoc|exact I]]].
        unfold keeper_inv, tracks, all_four, count_at, keyframe_at.
        cbn [body lastCluster trackBlockCount trackBlockKeyframe set_body
             set_elemBuf fst snd Z.eqb app].
        repeat split; auto.
        -- rewrite Hb, <- wire_snoc, <- app_assoc. reflexivity.
        -- apply Forall_app. split; [exact Hcur|]. now constructor.
        -- rewrite Hcond. discriminate.
    + rewrite hRAP_other in HN by assumption. injection HN as _ <-.
      clear Hh.
      destruct Hinv as (Hb & Hl & Hc & Hcur & Htr & Hfour & Hlead).
      exists els1, c, (cur ++ [el]).
      split; [reflexivity|]. split; [reflexivity|].
      split; [|split; [right; now rewrite <- app_assoc
                      |exists []; split; [now rewrite <- app_assoc|exact I]]].
      unfold keeper_inv, tracks, all_four, count_at, keyframe_at in *.
      cbn [body lastCluster trackBlockCount trackBlockKeyframe set_body
           set_elemBuf set_p fst snd Z.eqb] in *.
      rewrite !blocks_of_app, !(blocks_of_other _ el Eb), !app_nil_r.
      repeat split; auto; try apply Htr.
      * rewrite Hb, <- wire_snoc, <- app_assoc. reflexivity.
      * apply Forall_app. split; [exact Hcur|]. now constructor.
Qed.

Lemma parser_split (r : Parser) :
  exists pre tail,
    r = map Ok pre ++ tail /\
    Forall (fun el => is_Cluster el = false) pre /\
    match tail with
    | Ok c :: _ => is_Cluster c = true
    | _ => True
    end.
Proof.
  induction r as [|x r (pre & tail & -> & Hpre & Htail)].
  - exists [], []. repeat split; constructor.
  - destruct x as [el| |].
    + destruct (is_Cluster el) eqn:Ec.
      * exists [], (Ok el :: map Ok pre ++ tail).
        repeat split; [constructor | exact Ec].
      * exists (el :: pre), tail. repeat split; [|exact Htail].
        now constructor.
    + exists [], (Err e :: map Ok pre ++ tail). repeat split; constructor.
    + exists [], (Panic :: map Ok pre ++ tail). repeat split; constructor.
Qed.

Lemma New_loop_fuel (r : Parser) (h b : list byte) :
  New_loop (S (length r)) r h b <> None.
Proof.
  destruct (parser_split r) as (pre & tail & -> & Hpre & Htail).
  rewrite (New_loop_spec pre Hpre _ h b tail); [discriminate| |].
  - rewrite length_app, length_map. lia.
  - destruct tail as [|[c| |] rest]; auto.
Qed.

Lemma New_Ok (r : Parser) (wk0 : WebmKeeper) :
  New r = Ok wk0 ->
  exists hdr c,
    r = map Ok hdr ++ Ok c :: p wk0 /\
    Forall (fun el => is_Cluster el = false) hdr /\
    header wk0 = wire hdr /\
    keeper_inv wk0 [] c [].
Proof.
  destruct (parser_split r) as (pre & tail & -> & Hpre & Htail).
  unfold New. rewrite (New_loop_spec pre Hpre _ [] [] tail).
  - destruct tail as [|[c| |] rest]; intros Hw; try discriminate Hw.
    injection Hw as <-. exists pre, c. unfold keeper_inv, tracks.
    repeat split; auto.
    unfold wire. cbn. now rewrite app_nil_r.
  - rewrite length_app, length_map. lia.
  - destruct tail as [|[c| |] rest]; auto.
Qed.

Lemma offset_ok_New (r : Parser) (wk0 : WebmKeeper) :
  New r = Ok wk0 -> offset_ok wk0.
Proof.
  intros H. destruct (New_Ok r wk0 H) as (hdr & c & _ & _ & _ & Hinv).
  eapply keeper_inv_offset, Hinv.
Qed.

Lemma reachable_inv (r : Parser) (wk0 : WebmKeeper) (n : nat)
    (wk : WebmKeeper) :
  New r = Ok wk0 -> Next_n n wk0 = Some wk ->
  exists hdr skipped els1 c cur,
    r = map Ok (hdr ++ skipped ++ els1 ++ c :: cur) ++ p wk /\
    Forall (fun el => is_Cluster el = false) hdr /\
    header wk = wire hdr /\
    keeper_inv wk els1 c cur /\
    match skipped with [] => True | c1 :: _ => is_Cluster c1 = true end /\
    (rap_confirmed n wk0 -> starts_at_keyed_cluster (els1 ++ c :: cur)).
Proof.
  intros HNew. revert wk. induction n as [|n IH]; intros wk Hn.
  - cbn in Hn. injection Hn as <-.
    destruct (New_Ok r wk0 HNew) as (hdr & c & Hr & Hhdr & Hh & Hinv).
    exists hdr, [], [], c, [].
    split; [rewrite Hr, map_app, <- app_assoc; reflexivity|].
    split; [exact Hhdr|]. split; [exact Hh|].
    split; [exact Hinv|]. split; [exact I|].
    intros (k & wk' & Hk & Hk' & H4).
    assert (k = 0%nat) by lia. subst k. cbn in Hk'. injection Hk' as <-.
    now apply (keyed_of_all_four wk0 [] c []).
  - cbn [Next_n] in Hn.
    destruct (Next_n n wk0) as [wkn|] eqn:En; [|discriminate].
    destruct (Next wkn) as [[b| |] wk'] eqn:EN; try discriminate.
    injection Hn as <-.
    destruct (IH wkn eq_refl)
      as (hdr & skipped & els1 & c & cur & Hr & Hhdr & Hh & Hinv & Hsk
          & Hkeyed).
    destruct (keeper_inv_Next wkn wk' b els1 c cur Hinv EN)
      as (el & els1' & c' & cur' & Hp & Hh' & Hinv' & Hcase & dropped & Hd
          & Hdr).
    exists hdr, (skipped ++ dropped), els1', c', cur'.
    split; [|split; [exact Hhdr|split; [congruence|split; [exact Hinv'|split]]]].
    + rewrite Hr, Hp. rewrite <- (app_assoc skipped), <- Hd.
      rewrite !map_app. cbn [map]. rewrite <- !app_assoc. reflexivity.
    + destruct skipped; [exact Hdr | exact Hsk].
    + intros (k & wkk & Hk & Hk' & H4).
      destruct Hcase as [H4'|Heq];
        [now apply (keyed_of_all_four wk' els1' c' cur')|].
      destruct (Nat.eq_dec k (S n)) as [->|Hne].
      * cbn [Next_n] in Hk'. rewrite En, EN in Hk'. injection Hk' as <-.
        now apply (keyed_of_all_four wk' els1' c' cur').
      * rewrite Heq. apply keyed_snoc, Hkeyed.
        exists k, wkk. split; [lia|]. split; assumption.
Qed.

Lemma offset_ok_Next (wk wk' : WebmKeeper) (b : list byte)
    (els1 : list Elem) (c : Elem) (cur : list Elem) :
  keeper_inv wk els1 c cur -> Next wk = (Ok b, wk') -> offset_ok wk'.
Proof.
  intros Hinv HN.
  destruct (keeper_inv_Next wk wk' b els1 c cur Hinv HN)
    as (el & els1' & c' & cur' & _ & _ & Hinv' & _).
  eapply keeper_inv_offset, Hinv'.
Qed.

(** C2 -- bootstrap validity.  Take a keeper that [New] built from the
    stream [r] and on which [n] calls of [Next] completed.  Then the
    elements the keeper has consumed split into [hdr], the elements before
    the first Cluster, a run [skipped] and a run [els], and: the header is
    the serialization of [hdr]; the body is the serialization of [els];
    [els] starts at a Cluster element; so header and body together are the
    stream with the contiguous run [skipped] of whole elements left out,
    from a Cluster boundary on.  Once a random-access point has been
    confirmed, the Cluster at the head of the body has a keyframe as the
    first block of track 1 and as the first block of track 2. *)
Theorem bootstrap_validity (r : Parser) (wk0 : WebmKeeper) (n : nat)
    (wk : WebmKeeper) :
  New r = Ok wk0 -> Next_n n wk0 = Some wk ->
  exists hdr skipped els,
    r = map Ok (hdr ++ skipped ++ els) ++ p wk /\
    Forall (fun el => Name el <> "Cluster"%string) hdr /\
    header wk = wire hdr /\
    body wk = wire els /\
    (exists c rest, els = c :: rest /\ Name c = "Cluster"%string) /\
    (match skipped with
     | [] => True
     | c :: _ => Name c = "Cluster"%string
     end) /\
    offset_ok wk /\
    (rap_confirmed n wk0 -> starts_at_keyed_cluster els).
Proof.
  intros HNew Hn.
  destruct (reachable_inv r wk0 n wk HNew Hn)
    as (hdr & skipped & els1 & c & cur & Hr & Hhdr & Hh & Hinv & Hsk
        & Hkeyed).
  exists hdr, skipped, (els1 ++ c :: cur).
  split; [exact Hr|]. split.
  { eapply Forall_impl; [exact Hhdr|]. intros el. apply String.eqb_neq. }
  split; [exact Hh|].
  pose proof (keeper_inv_offset _ _ _ _ Hinv) as Hoff.
  destruct Hinv as (Hb & _ & Hc & _ & _ & _ & Hlead).
  split; [exact Hb|]. split.
  { destruct els1 as [|c1 els1]; cbn [app].
    - exists c, cur. split; [reflexivity|]. now apply is_Cluster_name.
    - eexists c1, _. split; [reflexivity|]. now apply is_Cluster_name. }
  split; [|split; [exact Hoff|exact Hkeyed]].
  destruct skipped; [exact I | now apply is_Cluster_name].
Qed.

End KeeperFacts.

(** Instances of the keeper properties, on the stream of [examples]. *)

Lemma random_access_point_rule_witness :
  exists wk',
    webmkeeper.handleRandomAccessPoint (V := ebml_varint.pkg)
      examples.key2 examples.wk4 = (Ok tt, wk') /\
    spec.rap_of wk' =
      spec.rap_rule (spec.EvBlock 2 true) (spec.rap_of examples.wk4) /\
    spec.same_frame examples.wk4 wk'.
Proof.
  apply (proj1 (proj2 (random_access_point_rule (V := ebml_varint.pkg)
                         examples.wk4 examples.key2))).
  - left. reflexivity.
  - reflexivity.
  - right. reflexivity.
  - unfold spec.offset_ok. simpl. lia.
Defined.

Lemma bootstrap_validity_witness :
  exists els,
    webmkeeper.body examples.wk5 = spec.wire els /\
    spec.starts_at_keyed_cluster (V := ebml_varint.pkg) els.
Proof.
  assert (H0 : webmkeeper.New examples.stream = Ok examples.wk0)
    by reflexivity.
  assert (H5 : spec.Next_n (V := ebml_varint.pkg) 5 examples.wk0
               = Some examples.wk5) by reflexivity.
  destruct (bootstrap_validity (V := ebml_varint.pkg)
              examples.stream examples.wk0 5 examples.wk5 H0 H5)
    as (hdr & skipped & els & _ & _ & _ & Hb & _ & _ & _ & Hk).
  exists els. split; [exact Hb|]. apply Hk.
  exists 5%nat, examples.wk5. split; [lia|]. split; [exact H5|reflexivity].
Defined.

Lemma New_splits_at_first_Cluster_witness :
  webmkeeper.New examples.stream = Ok examples.wk0.
Proof.
  apply (proj1 (New_splits_at_first_Cluster examples.head_elems
                  examples.cluster1 examples.after_cluster1 io_EOF
                  ltac:(repeat constructor; discriminate))).
  reflexivity.
Defined.

Lemma impossible_track_rejected_witness :
  fst (webmkeeper.Next (V := ebml_varint.pkg) examples.wk5)
    = Err (Errorf_impossible_track 3) /\
  webmkeeper.header (snd (webmkeeper.Next (V := ebml_varint.pkg) examples.wk5))
    = webmkeeper.header examples.wk5 /\
  webmkeeper.body (snd (webmkeeper.Next (V := ebml_varint.pkg) examples.wk5))
    = webmkeeper.body examples.wk5 /\
  spec.rap_of (snd (webmkeeper.Next (V := ebml_varint.pkg) examples.wk5))
    = spec.rap_of examples.wk5.
Proof.
  apply (proj1 (proj2 (impossible_track_rejected (V := ebml_varint.pkg)
                         examples.wk5 examples.key3 [] 3 true
                         eq_refl (or_introl eq_refl) eq_refl))).
  right. lia.
Defined.

Lemma saturating_counter_witness :
  webmkeeper.incTrackCount 0 examples.wk_full = (Ok tt, examples.wk_full) /\
  spec.count_at
    (spec.Next_any (V := ebml_varint.pkg) 2 examples.wk_full) 0 = 255.
Proof.
  destruct (saturating_counter (V := ebml_varint.pkg) examples.wk_full 0
              (or_introl eq_refl)) as (_ & Hstay & Hrun).
  split.
  - apply Hstay. reflexivity.
  - apply Hrun; [reflexivity|].
    intros k el Hk Hel.
    destruct k as [|[|k]]; [| |lia]; simpl in Hel;
      injection Hel as <-; discriminate.
Defined.

(** ** The registry of publishers *)

Section PubSubFacts.
Import pubsub spec.

Lemma GetPubCh_reports (channel : string) (pm : PubSubMux) :
  snd (fst (GetPubCh channel pm)) =
  match mux pm !! channel with
  | Some ps => srcGotten ps
  | None => false
  end.
Proof.
  unfold GetPubCh. destruct (mux pm !! channel); reflexivity.
Qed.

Lemma mux_run_op (channel : string) (o : op) (pm : PubSubMux) :
  snd (fst (GetPubCh channel (run_op o pm))) =
  match o with
  | OpGetPubCh c =>
      if String.eqb c channel then true else snd (fst (GetPubCh channel pm))
  | OpClosePubCh c =>
      if String.eqb c channel then false else snd (fst (GetPubCh channel pm))
  | _ => snd (fst (GetPubCh channel pm))
  end.
Proof.
  rewrite !GetPubCh_reports.
  destruct o as [c|c|c ch acc|c ch acc]; cbn [run_op].
  - unfold GetPubCh.
    destruct (String.eqb_spec c channel) as [<-|Hne];
      destruct (mux pm !! c) eqn:E; cbn; simplify_map_eq; reflexivity.
  - unfold ClosePubCh.
    destruct (String.eqb_spec c channel) as [<-|Hne];
      destruct (mux pm !! c) eqn:E; cbn; simplify_map_eq; try reflexivity.
  - unfold AddSubCh.
    destruct (decide (c = channel)) as [<-|Hne];
      destruct (mux pm !! c) eqn:E; destruct acc; cbn; simplify_map_eq;
      reflexivity.
  - unfold RemSubCh.
    destruct (decide (c = channel)) as [<-|Hne];
      destruct (mux pm !! c) eqn:E; destruct acc; cbn; simplify_map_eq;
      reflexivity.
Qed.

Lemma GetPubCh_live (channel : string) (ops : list op) (pm : PubSubMux) :
  snd (fst (GetPubCh channel (run_ops ops pm))) =
  live_from channel ops (snd (fst (GetPubCh channel pm))).
Proof.
  revert pm. induction ops as [|o ops IH]; intros pm; [reflexivity|].
  unfold run_ops in *. cbn [fold_left]. rewrite IH, mux_run_op.
  destruct o; reflexivity.
Qed.

Lemma live_from_iff (channel : string) (ops : list op) (acc : bool) :
  live_from channel ops acc = true <->
  (exists ops1 ops2,
     ops = ops1 ++ OpGetPubCh channel :: ops2 /\
     OpClosePubCh channel ∉ ops2) \/
  (acc = true /\ OpClosePubCh channel ∉ ops).
Proof.
  revert acc. induction ops as [|o ops IH]; intros acc.
  - cbn. split.
    + intros ->. right. split; [reflexivity|]. apply not_elem_of_nil.
    + intros [(ops1 & ops2 & H & _)|[H _]]; [|exact H].
      destruct ops1; discriminate.
  - assert (Hshift :
      o <> OpGetPubCh channel ->
      ((exists ops1 ops2,
          o :: ops = ops1 ++ OpGetPubCh channel :: ops2 /\
          OpClosePubCh channel ∉ ops2) <->
       (exists ops1 ops2,
          ops = ops1 ++ OpGetPubCh channel :: ops2 /\
          OpClosePubCh channel ∉ ops2))).
    { intros Hne. split; intros (ops1 & ops2 & H & Hc).
      - destruct ops1 as [|x ops1]; simplify_eq/=. now exists ops1, ops2.
      - exists (o :: ops1), ops2. split; [now rewrite H|exact Hc]. }
    destruct o as [c|c|c ch a|c ch a]; cbn [live_from].
    + destruct (String.eqb_spec c channel) as [->|Hne].
      * rewrite IH. split.
        -- intros [(ops1 & ops2 & -> & Hc)|[_ Hc]].
           ++ left. now exists (OpGetPubCh channel :: ops1), ops2.
           ++ left. now exists [], ops.
        -- intros [(ops1 & ops2 & H & Hc)|[_ Hc]].
           ++ destruct ops1 as [|x ops1]; simplify_eq/=.
              ** now right.
              ** left. now exists ops1, ops2.
           ++ right. split; [reflexivity|].
              apply not_elem_of_cons in Hc. apply Hc.
      * rewrite IH, Hshift by congruence.
        rewrite not_elem_of_cons. intuition congruence.
    + destruct (String.eqb_spec c channel) as [->|Hne].
      * rewrite IH, Hshift by congruence.
        rewrite not_elem_of_cons. intuition congruence.
      * rewrite IH, Hshift by congruence.
        rewrite not_elem_of_cons. intuition congruence.
    + rewrite IH, Hshift by congruence.
      rewrite not_elem_of_cons. intuition congruence.
    + rewrite IH, Hshift by congruence.
      rewrite not_elem_of_cons. intuition congruence.
Qed.

End PubSubFacts.

(** ** The HTTP adapter *)

Section HttpFacts.
Context {V : varint.Pkg} {B : bufio.Pkg}.
Import http httppubsub.

Lemma GetPubCh_exists (channel : string) (pm : pubsub.PubSubMux) :
  snd (fst (pubsub.GetPubCh channel pm)) = true ->
  exists ch, pubsub.GetPubCh channel pm = (ch, true, pm).
Proof.
  unfold pubsub.GetPubCh.
  destruct (pubsub.mux pm !! channel) as [ps|] eqn:E; cbn; [|discriminate].
  intros Hg. exists (pubsub.src ps). rewrite Hg. f_equal.
  destruct pm as [m n cl sn], ps as [a0 r0 s0 d0 g0]. cbn in *. subst g0.
  unfold pubsub.set_mux, pubsub.set_srcGotten. cbn.
  now rewrite insert_id.
Qed.

(** A second POST on a channel whose publisher is live: once the
    application has let the request in, the adapter answers 403 and leaves
    the registry as it was. *)
Lemma ServeHTTP_publisher_exists (fuel : nat) (a r : bool)
    (inbox : list (list byte)) (req : Request) (wd : World main.Globals)
    (wk : webmkeeper.WebmKeeper) :
  Method req = "POST"%string ->
  webmkeeper.New (Body req) = Ok wk ->
  main.keepers (glob wd) !! URL_Path req = None ->
  snd (fst (pubsub.GetPubCh (URL_Path req) (pmux wd))) = true ->
  calls (resp wd) = [] ->
  exists wd',
    ServeHTTP main.app fuel a r inbox req wd = Some (Ok tt, wd') /\
    status (resp wd') = 403 /\ pmux wd' = pmux wd.
Proof.
  intros Hm HN Hk Hg Hc.
  destruct (GetPubCh_exists _ _ Hg) as [ch Hch].
  unfold ServeHTTP. cbn [main.app OnOpen]. unfold main.OnOpen.
  rewrite Hm. cbn [String.eqb Ascii.eqb Bool.eqb andb]. rewrite HN.
  unfold main.alloc, main.addKeeper. cbn [main.keepers main.heap].
  rewrite Hk. cbn [negb bail Z.eqb resp glob pmux]. rewrite Hch.
  cbn [resp glob pmux]. unfold doLast. cbn [OnClose main.app main.OnClose
    main.isBcaster resp glob pmux bail Z.eqb].
  eexists. split; [reflexivity|]. cbn [resp pmux]. split; [|reflexivity].
  unfold status, WriteHeader. cbn [calls]. rewrite Hc. reflexivity.
Qed.

(** C9 -- subscribing to a missing channel.  A GET whose path has no
    keeper registered ends at once: the response is the status 404
    followed by the one write of "couldn't find stream " and the path, and
    neither the bus nor the keeper registry is touched, so no subscriber
    queue is registered. *)
Theorem missing_channel_404 (fuel : nat) (a r : bool)
    (inbox : list (list byte)) (req : Request) (wd : World main.Globals) :
  Method req = "GET"%string ->
  main.keepers (glob wd) !! URL_Path req = None ->
  calls (resp wd) = [] ->
  exists wd',
    ServeHTTP main.app fuel a r inbox req wd = Some (Ok tt, wd') /\
    calls (resp wd') =
      [CallWriteHeader 404;
       CallWrite (bytes_of_string
                    (String.append "couldn't find stream " (URL_Path req)))] /\
    status (resp wd') = 404 /\
    response_body (resp wd') =
      bytes_of_string (String.append "couldn't find stream " (URL_Path req)) /\
    pmux wd' = pmux wd /\ glob wd' = glob wd.
Proof.
  intros Hm Hk Hc.
  unfold ServeHTTP. cbn [main.app OnOpen]. unfold main.OnOpen, main.getKeeper.
  rewrite Hm, Hk. cbn [String.eqb Ascii.eqb Bool.eqb andb].
  cbn [bail Z.eqb resp glob pmux]. unfold Write, WriteHeader. cbn [calls healthy].
  rewrite Hc.
  destruct (healthy (resp wd)); cbn [resp glob pmux calls app];
    (eexists; split; [reflexivity|]);
    unfold status, response_body; cbn [resp glob pmux calls body_of];
    rewrite app_nil_r; repeat split.
Qed.

End HttpFacts.

(** An instance of [missing_channel_404]: a GET of [/stream/missing] on a
    server that has no keeper at all. *)
Lemma missing_channel_404_witness :
  exists wd',
    httppubsub.ServeHTTP (B := unbuffered) (main.app (V := ebml_varint.pkg))
      0 true true [] examples.get_missing examples.fresh_world
    = Some (Ok tt, wd') /\
    http.status (httppubsub.resp wd') = 404 /\
    http.response_body (httppubsub.resp wd') =
      httppubsub.bytes_of_string "couldn't find stream /stream/missing".
Proof.
  destruct (missing_channel_404 (V := ebml_varint.pkg) (B := unbuffered)
              0 true true [] examples.get_missing examples.fresh_world
              eq_refl ltac:(vm_compute; reflexivity) eq_refl)
    as (wd' & Hs & _ & H404 & Hbody & _).
  exists wd'. split; [exact Hs|]. split; [exact H404|exact Hbody].
Defined.

(** C8 -- single publisher and channel release.  After any sequence [ops]
    of registry calls on a new multiplexer, [GetPubCh] reports an existing
    publisher for [channel] exactly when [ops] contains a [GetPubCh] for
    [channel] with no [ClosePubCh] for [channel] after it.  Hence a
    [GetPubCh] that follows a [GetPubCh] reports a publisher, a [GetPubCh]
    that follows a [ClosePubCh] reports none, and a POST that reaches the
    adapter while the publisher of its channel is live is answered 403,
    the registry staying as it was. *)
Theorem single_publisher {V : varint.Pkg} {B : bufio.Pkg}
    (channel : string) (ops : list pubsub.op) :
  (snd (fst (pubsub.GetPubCh channel
               (pubsub.run_ops ops pubsub.NewPubSubMux))) = true <->
   exists ops1 ops2,
     ops = ops1 ++ pubsub.OpGetPubCh channel :: ops2 /\
     pubsub.OpClosePubCh channel ∉ ops2) /\
  snd (fst (pubsub.GetPubCh channel
              (pubsub.run_ops (ops ++ [pubsub.OpGetPubCh channel])
                 pubsub.NewPubSubMux))) = true /\
  snd (fst (pubsub.GetPubCh channel
              (pubsub.run_ops (ops ++ [pubsub.OpClosePubCh channel])
                 pubsub.NewPubSubMux))) = false /\
  (forall fuel a r inbox req wd wk,
     httppubsub.pmux wd = pubsub.run_ops ops pubsub.NewPubSubMux ->
     http.URL_Path req = channel ->
     (exists ops1 ops2,
        ops = ops1 ++ pubsub.OpGetPubCh channel :: ops2 /\
        pubsub.OpClosePubCh channel ∉ ops2) ->
     http.Method req = "POST"%string ->
     webmkeeper.New (http.Body req) = Ok wk ->
     main.keepers (httppubsub.glob wd) !! channel = None ->
     http.calls (httppubsub.resp wd) = [] ->
     exists wd',
       httppubsub.ServeHTTP main.app fuel a r inbox req wd
         = Some (Ok tt, wd') /\
       http.status (httppubsub.resp wd') = 403 /\
       httppubsub.pmux wd' = httppubsub.pmux wd).
Proof.
  assert (Hlive : forall l,
            snd (fst (pubsub.GetPubCh channel
                        (pubsub.run_ops l pubsub.NewPubSubMux))) = true <->
            exists ops1 ops2,
              l = ops1 ++ pubsub.OpGetPubCh channel :: ops2 /\
              pubsub.OpClosePubCh channel ∉ ops2).
  { intros l. rewrite GetPubCh_live, live_from_iff.
    rewrite GetPubCh_reports. cbn. rewrite lookup_empty.
    split; [intros [H|[H _]]; [exact H|discriminate] | now left]. }
  split; [apply Hlive|]. split; [|split].
  - apply Hlive. exists ops, []. split; [reflexivity|]. apply not_elem_of_nil.
  - unfold pubsub.run_ops. rewrite fold_left_app. cbn [fold_left].
    rewrite mux_run_op, String.eqb_refl. reflexivity.
  - intros fuel a r inbox req wd wk Hpm Hpath Hex Hm HN Hk Hc. subst channel.
    apply (ServeHTTP_publisher_exists fuel a r inbox req wd wk); auto.
    rewrite Hpm. now apply Hlive.
Qed.

(** An instance of [single_publisher]: after one [GetPubCh] on
    [/stream/x], a second one reports the publisher. *)
Lemma single_publisher_witness :
  snd (fst (pubsub.GetPubCh "/stream/x"
              (pubsub.run_ops [pubsub.OpGetPubCh "/stream/x"]
                 pubsub.NewPubSubMux))) = true.
Proof.
  apply (proj2 (proj1 (single_publisher (V := ebml_varint.pkg)
                         (B := unbuffered) "/stream/x"
                         [pubsub.OpGetPubCh "/stream/x"]))).
  exists [], []. split; [reflexivity|]. apply not_elem_of_nil.
Defined.

(** * Further properties *)

(** ** The keeper, call by call *)

Section KeeperRuns.
Context {V : varint.Pkg}.
Import edtd webmkeeper spec flow http.

Lemma hRAP_Err_unchanged (el : Elem) (wk wk' : WebmKeeper) (e : goerr) :
  handleRandomAccessPoint el wk = (Err e, wk') -> wk' = wk.
Proof.
  destruct (is_Cluster el) eqn:Ec;
    [rewrite hRAP_Cluster by exact Ec; discriminate|].
  destruct (is_block el) eqn:Eb;
    [|rewrite hRAP_other by assumption; discriminate].
  destruct (hRAP_block_fail el wk Eb) as (H1 & H2 & H3).
  destruct (webm.AsKeyBlock el) as [[t kf]|e0|] eqn:Ek.
  - destruct (Z.lt_ge_cases t 1) as [Hlt|Hge];
      [rewrite (H3 t kf eq_refl) by (left; exact Hlt); now intros [= _ <-]|].
    destruct (Z.lt_ge_cases 2 t) as [Hgt|Hle];
      [rewrite (H3 t kf eq_refl) by (right; lia); now intros [= _ <-]|].
    intros H. exfalso.
    apply (hRAP_block_no_Err el wk t kf e Eb Ek); [lia|].
    now rewrite H.
  - rewrite (H1 e0 eq_refl). now intros [= _ <-].
  - rewrite (H2 eq_refl). discriminate.
Qed.

(** X1 -- Whenever [Next] returns an error -- the source is exhausted or fails,
    a block cannot be decoded, a block names an impossible track -- the
    keeper is what it was, but for its parser, which has moved past the
    item that failed. *)
Theorem Next_error_leaves_keeper (wk : WebmKeeper) (e : goerr) :
  fst (Next wk) = Err e -> snd (Next wk) = set_p (tl (p wk)) wk.
Proof.
  rewrite Next_step.
  destruct (p wk) as [|[el| |] p1]; cbn [edtd.Next tl fst snd];
    try reflexivity; try discriminate.
  destruct (handleRandomAccessPoint el (set_p p1 wk)) as [[[]|e'|] wk1] eqn:Eh;
    cbn [fst snd]; try discriminate.
  intros _. now rewrite (hRAP_Err_unchanged _ _ _ _ Eh).
Qed.

(** What a completed [Next] returns is the serialization of the element
    it took from the parser. *)
Lemma Next_Ok_elem (wk wk' : WebmKeeper) (b : list byte) :
  Next wk = (Ok b, wk') -> exists el, p wk = Ok el :: p wk' /\ b = WriteTo el.
Proof.
  intros HN. pose proof (p_Next wk) as Hp. rewrite HN in Hp. cbn [snd] in Hp.
  rewrite Next_step in HN.
  destruct (p wk) as [|[el| |] p1]; cbn [edtd.Next tl] in *;
    try discriminate.
  exists el. subst p1.
  destruct (handleRandomAccessPoint el (set_p (p wk') wk)) as [[[]| |] wk1];
    try discriminate.
  injection HN as <- _. split; reflexivity.
Qed.

Lemma Next_run_elems (m : nat) (wk wk' : WebmKeeper)
    (outs : list (list byte)) :
  Next_run m wk = Some (outs, wk') ->
  exists news, p wk = map Ok news ++ p wk' /\ outs = map WriteTo news /\
               length news = m.
Proof.
  revert wk outs. induction m as [|m IH]; intros wk outs; cbn [Next_run].
  - intros [= <- <-]. exists []. repeat split.
  - destruct (Next wk) as [[b| |] wk1] eqn:EN; try discriminate.
    destruct (Next_run m wk1) as [[outs1 wk2]|] eqn:ER; [|discriminate].
    intros [= <- <-].
    destruct (Next_Ok_elem _ _ _ EN) as (el & Hp & ->).
    destruct (IH _ _ ER) as (news & Hp1 & -> & Hlen).
    exists (el :: news). cbn [map app length].
    rewrite Hp, Hp1, Hlen. repeat split.
Qed.

Lemma Next_n_run (m n : nat) (wk0 wk wk' : WebmKeeper)
    (outs : list (list byte)) :
  Next_n n wk0 = Some wk -> Next_run m wk = Some (outs, wk') ->
  Next_n (n + m) wk0 = Some wk'.
Proof.
  revert n wk outs. induction m as [|m IH]; intros n wk outs Hn; cbn [Next_run].
  - intros [= _ <-]. now rewrite Nat.add_0_r.
  - destruct (Next wk) as [[b| |] wk1] eqn:EN; try discriminate.
    destruct (Next_run m wk1) as [[outs1 wk2]|] eqn:ER; [|discriminate].
    intros [= _ <-].
    replace (n + S m)%nat with (S n + m)%nat by lia.
    apply (IH (S n) wk1 outs1); [|exact ER].
    cbn [Next_n]. now rewrite Hn, EN.
Qed.


(** X3 -- The tracking state describes the current cluster.  On a keeper that
    [New] built from [r] and that completed [n] calls of [Next], let [c] be
    the last Cluster element consumed and [cur] the elements consumed
    since.  Then the offset points at the serialization of [c] in the
    body, each count is the number of blocks of its track in [cur], capped
    at 255, and each keyframe flag tells whether one of those blocks is a
    keyframe. *)
Theorem tracking_describes_cluster (r : Parser) (wk0 wk : WebmKeeper)
    (n : nat) :
  New r = Ok wk0 -> Next_n n wk0 = Some wk ->
  exists before c cur,
    r = map Ok (before ++ c :: cur) ++ p wk /\
    Name c = "Cluster"%string /\
    Forall (fun el => Name el <> "Cluster"%string) cur /\
    drop (Z.to_nat (lastCluster wk)) (body wk) = wire (c :: cur) /\
    count_at wk 0 = Z.min 255 (Z.of_nat (length (blocks_of 1 cur))) /\
    count_at wk 1 = Z.min 255 (Z.of_nat (length (blocks_of 2 cur))) /\
    keyframe_at wk 0 = existsb id (blocks_of 1 cur) /\
    keyframe_at wk 1 = existsb id (blocks_of 2 cur).
Proof.
  intros HNew Hn.
  destruct (reachable_inv r wk0 n wk HNew Hn)
    as (hdr & skipped & els1 & c & cur & Hr & _ & _ & Hinv & _ & _).
  destruct Hinv as (Hb & Hl & Hc & Hcur & Htr & _ & _).
  exists (hdr ++ skipped ++ els1), c, cur.
  split; [rewrite Hr, <- !app_assoc; reflexivity|].
  split; [now apply is_Cluster_name|]. split.
  { eapply Forall_impl; [exact Hcur|]. intros el. apply String.eqb_neq. }
  split; [|exact Htr].
  rewrite Hb, Hl, wire_app, Nat2Z.id, drop_app_length. reflexivity.
Qed.

(** X4 -- Forward progress.  On such a keeper, when both counts are 1 and both
    keyframe flags are set, the body holds the current cluster and nothing
    before it: it is the serialization of the last Cluster element
    consumed and of the elements consumed since, and the offset is 0. *)
Theorem body_is_current_cluster (r : Parser) (wk0 wk : WebmKeeper)
    (n : nat) :
  New r = Ok wk0 -> Next_n n wk0 = Some wk -> all_four wk = true ->
  exists before c cur,
    r = map Ok (before ++ c :: cur) ++ p wk /\
    Name c = "Cluster"%string /\
    Forall (fun el => Name el <> "Cluster"%string) cur /\
    body wk = wire (c :: cur) /\ lastCluster wk = 0.
Proof.
  intros HNew Hn H4.
  destruct (reachable_inv r wk0 n wk HNew Hn)
    as (hdr & skipped & els1 & c & cur & Hr & _ & _ & Hinv & _ & _).
  destruct Hinv as (Hb & Hl & Hc & Hcur & _ & Hfour & _).
  specialize (Hfour H4). subst els1.
  exists (hdr ++ skipped), c, cur.
  split; [rewrite Hr, <- !app_assoc; reflexivity|].
  split; [now apply is_Cluster_name|]. split.
  { eapply Forall_impl; [exact Hcur|]. intros el. apply String.eqb_neq. }
  split; [exact Hb | exact Hl].
Qed.

(** X5 -- [Bootstrap] writes the header and then the body, in two writes, and
    leaves the keeper alone.  When the first write fails the body is not
    written and the error of that write is returned; when both succeed
    the response body has grown by the header followed by the body. *)
Theorem Bootstrap_header_then_body (w : http.ResponseWriter)
    (wk : WebmKeeper) :
  snd (Bootstrap w wk) = wk /\
  (http.healthy w = 0%nat ->
   exists e,
     fst (Bootstrap w wk) =
     (Err e, {| http.calls := http.calls w ++ [http.CallWrite (header wk)];
                http.healthy := 0 |})) /\
  ((2 <= http.healthy w)%nat ->
   exists w',
     fst (Bootstrap w wk) = (Ok tt, w') /\
     http.calls w' =
       http.calls w ++ [http.CallWrite (header wk); http.CallWrite (body wk)] /\
     http.response_body w' = http.response_body w ++ header wk ++ body wk).
Proof.
  assert (Happ : forall a b, body_of (a ++ b) = body_of a ++ body_of b).
  { induction a as [|[code|x] a IH]; intros b0; cbn; [reflexivity|apply IH|].
    now rewrite IH, app_assoc. }
  destruct w as [cs [|[|h]]]; cbn.
  - split; [reflexivity|]. split; [|lia]. intros _. eexists. reflexivity.
  - split; [reflexivity|]. split; [discriminate|lia].
  - split; [reflexivity|]. split; [discriminate|]. intros _.
    eexists. split; [reflexivity|]. cbn.
    split; [now rewrite <- app_assoc|].
    unfold response_body. cbn. rewrite <- app_assoc, Happ. cbn.
    now rewrite app_nil_r.
Qed.

End KeeperRuns.

(** An instance of [Next_error_leaves_keeper]: the keeper [examples.wk5] meets a block of
    track 3; the call fails and only the parser has moved. *)
Lemma Next_error_leaves_keeper_witness :
  snd (webmkeeper.Next (V := ebml_varint.pkg) examples.wk5) =
  webmkeeper.set_p (tl (webmkeeper.p examples.wk5)) examples.wk5.
Proof.
  apply (Next_error_leaves_keeper (V := ebml_varint.pkg) examples.wk5
           (Errorf_impossible_track 3)).
  vm_compute. reflexivity.
Defined.


(** An instance of [tracking_describes_cluster]: [examples.stream] after
    four calls of [Next]. *)
Lemma tracking_describes_cluster_witness :
  exists before c cur,
    examples.stream =
      map Ok (before ++ c :: cur) ++ webmkeeper.p examples.wk4 /\
    edtd.Name c = "Cluster"%string /\
    Forall (fun el => edtd.Name el <> "Cluster"%string) cur /\
    drop (Z.to_nat (webmkeeper.lastCluster examples.wk4))
      (webmkeeper.body examples.wk4) = spec.wire (c :: cur) /\
    spec.count_at examples.wk4 0 =
      Z.min 255
        (Z.of_nat (length (spec.blocks_of (V := ebml_varint.pkg) 1 cur))) /\
    spec.count_at examples.wk4 1 =
      Z.min 255
        (Z.of_nat (length (spec.blocks_of (V := ebml_varint.pkg) 2 cur))) /\
    spec.keyframe_at examples.wk4 0 =
      existsb id (spec.blocks_of (V := ebml_varint.pkg) 1 cur) /\
    spec.keyframe_at examples.wk4 1 =
      existsb id (spec.blocks_of (V := ebml_varint.pkg) 2 cur).
Proof.
  apply (tracking_describes_cluster (V := ebml_varint.pkg) examples.stream
           examples.wk0 examples.wk4 4); vm_compute; reflexivity.
Defined.

(** An instance of [body_is_current_cluster]: [examples.stream] after five
    calls of [Next], when both tracks have their keyframe. *)
Lemma body_is_current_cluster_witness :
  exists before c cur,
    examples.stream =
      map Ok (before ++ c :: cur) ++ webmkeeper.p examples.wk5 /\
    edtd.Name c = "Cluster"%string /\
    Forall (fun el => edtd.Name el <> "Cluster"%string) cur /\
    webmkeeper.body examples.wk5 = spec.wire (c :: cur) /\
    webmkeeper.lastCluster examples.wk5 = 0.
Proof.
  apply (body_is_current_cluster (V := ebml_varint.pkg) examples.stream
           examples.wk0 examples.wk5 5); vm_compute; reflexivity.
Defined.

(** An instance of [Bootstrap_header_then_body]: [examples.wk5] on a
    connection that carries two writes. *)
Lemma Bootstrap_header_then_body_witness :
  exists w',
    fst (webmkeeper.Bootstrap (H := http.ResponseWriter_Writer)
           {| http.calls := []; http.healthy := 2 |} examples.wk5)
      = (Ok tt, w') /\
    http.calls w' =
      [http.CallWrite (webmkeeper.header examples.wk5);
       http.CallWrite (webmkeeper.body examples.wk5)] /\
    http.response_body w' =
      webmkeeper.header examples.wk5 ++ webmkeeper.body examples.wk5.
Proof.
  apply (proj2 (proj2 (Bootstrap_header_then_body
                         {| http.calls := []; http.healthy := 2 |}
                         examples.wk5))).
  simpl. lia.
Defined.

(** ** The block decoder, field by field *)

Section DecoderMore.
Context {V : varint.Pkg}.
Import edtd webm.

Lemma int16_small (z : Z) : -32768 <= z <= 32767 -> int16 z = z.
Proof. unfold int16. intros H. rewrite Z.mod_small; lia. Qed.

Lemma int16_range (z : Z) : -32768 <= int16 z <= 32767.
Proof.
  unfold int16. pose proof (Z.mod_pos_bound (z + 32768) 65536). lia.
Qed.

Lemma lor_low_high (y k : Z) :
  0 <= y < 256 -> Z.lor y (k * 256) = y + k * 256.
Proof.
  intros Hy.
  assert (Hl : Z.land y (k * 256) = 0).
  { apply Z.bits_inj'. intros i Hi. rewrite Z.land_spec, Z.bits_0.
    destruct (Z.lt_ge_cases i 8) as [Hlt|Hge].
    - change 256 with (2 ^ 8). rewrite Z.mul_pow2_bits_low by lia.
      apply andb_false_r.
    - destruct (Z.eq_dec y 0) as [->|Hy0]; [now rewrite Z.bits_0|].
      rewrite (Z.bits_above_log2 y i); [reflexivity|lia|].
      assert (Z.log2 y < 8) by (apply Z.log2_lt_pow2; lia). lia. }
  rewrite (Z.add_nocarry_lxor _ _ Hl). symmetry. now apply Z.lxor_lor.
Qed.

Lemma timecode_value (d0 d1 : byte) :
  int16 (Z.lor (int16 (u8 d1)) (int16 (Z.shiftl (int16 (u8 d0)) 8)))
  = int16 (256 * u8 d0 + u8 d1).
Proof.
  pose proof (u8_range d0) as H0. pose proof (u8_range d1) as H1.
  rewrite (int16_small (u8 d1)), (int16_small (u8 d0)) by lia.
  rewrite Z.shiftl_mul_pow2 by lia. change (2 ^ 8) with 256.
  destruct (Z.lt_ge_cases (u8 d0) 128) as [Hlt|Hge].
  - rewrite (int16_small (u8 d0 * 256)) by lia.
    rewrite lor_low_high by lia. f_equal. lia.
  - assert (E : int16 (u8 d0 * 256) = (u8 d0 - 256) * 256).
    { unfold int16.
      replace (u8 d0 * 256 + 32768)
        with ((u8 d0 - 256) * 256 + 32768 + 1 * 65536) by lia.
      rewrite Z_mod_plus_full, Z.mod_small; lia. }
    rewrite E, lor_low_high by lia.
    unfold int16. f_equal.
    replace (256 * u8 d0 + u8 d1 + 32768)
      with (u8 d1 + (u8 d0 - 256) * 256 + 32768 + 1 * 65536) by lia.
    now rewrite Z_mod_plus_full.
Qed.

Lemma flag_bit (flags : byte) (i : Z) :
  0 <= i -> (Z.land (u8 flags) (2 ^ i) =? 2 ^ i) = Z.testbit (u8 flags) i.
Proof.
  intros Hi. destruct (Z.testbit (u8 flags) i) eqn:Eb.
  - apply Z.eqb_eq. apply Z.bits_inj'. intros j Hj.
    rewrite Z.land_spec, Z.pow2_bits_eqb by lia.
    destruct (Z.eqb_spec i j) as [<-|]; [now rewrite Eb|apply andb_false_r].
  - apply Z.eqb_neq. intros E. apply (f_equal (fun z => Z.testbit z i)) in E.
    rewrite Z.land_spec, Z.pow2_bits_true, Eb in E by lia. discriminate.
Qed.

Lemma parseAsSimpleBlock_Ok (data : list byte) (v : varint.VarInt)
    (t : Z) (k : nat) (d0 d1 flags : byte) (rest : list byte) :
  varint.Parse data = Ok v -> varint.Uint64 v = Ok t ->
  varint.Size v = Ok (Z.of_nat k) ->
  drop k data = d0 :: d1 :: flags :: rest ->
  parseAsSimpleBlock data =
  Ok {| sTrackNumber := t;
        sTimecode := int16 (256 * u8 d0 + u8 d1);
        sKeyframe := Z.land (u8 flags) 128 =? 128;
        sInvisible := Z.land (u8 flags) 8 =? 8;
        sDiscardable := Z.land (u8 flags) 1 =? 1;
        sLacing := Z.land (Z.shiftr (u8 flags) 4) 3 |}.
Proof.
  intros HP HU HS Hd.
  assert (Hk : (k <= length data)%nat).
  { apply (f_equal length) in Hd. rewrite length_drop in Hd. cbn in Hd. lia. }
  unfold parseAsSimpleBlock. rewrite HP. cbn [rbind]. rewrite HU, HS.
  cbn [rbind]. rewrite (slice_from_nat data k Hk), Hd.
  cbn [rbind index lookup list_lookup]. rewrite slice_from_2.
  cbn [rbind index lookup list_lookup]. now rewrite timecode_value.
Qed.

Lemma drop_third (data : list byte) (k : nat) (flags : byte) :
  data !! (k + 2)%nat = Some flags ->
  exists d0 d1 rest, drop k data = d0 :: d1 :: flags :: rest.
Proof.
  intros Hf.
  assert (Hf' : drop k data !! 2%nat = Some flags) by now rewrite lookup_drop.
  destruct (drop k data) as [|a [|b [|c l]]]; try discriminate.
  cbn in Hf'. injection Hf' as ->. eauto.
Qed.

(** X6 -- The fields of a SimpleBlock.  When the track number is a varint of [k]
    bytes and at least three bytes follow it, [parseAsSimpleBlock]
    succeeds; the timecode is the two bytes after the track number read as
    a big-endian signed 16-bit integer; the keyframe, invisible and
    discardable flags are the bits 0x80, 0x08 and 0x01 of the third byte;
    the lacing mode is the two bits 0x30 of that byte, a number from 0 to
    3.  Nothing after the third byte is looked at. *)
Theorem parseAsSimpleBlock_fields (data : list byte) (v : varint.VarInt)
    (t : Z) (k : nat) (d0 d1 flags : byte) (rest : list byte) :
  varint.Parse data = Ok v -> varint.Uint64 v = Ok t ->
  varint.Size v = Ok (Z.of_nat k) ->
  drop k data = d0 :: d1 :: flags :: rest ->
  exists s,
    parseAsSimpleBlock data = Ok s /\
    sTrackNumber s = t /\
    sTimecode s = int16 (256 * u8 d0 + u8 d1) /\
    -32768 <= sTimecode s <= 32767 /\
    sKeyframe s = Z.testbit (u8 flags) 7 /\
    sInvisible s = Z.testbit (u8 flags) 3 /\
    sDiscardable s = Z.testbit (u8 flags) 0 /\
    sLacing s = (u8 flags / 16) mod 4 /\
    0 <= sLacing s <= 3.
Proof.
  intros HP HU HS Hd.
  rewrite (parseAsSimpleBlock_Ok data v t k d0 d1 flags rest HP HU HS Hd).
  eexists. split; [reflexivity|].
  cbn [sTrackNumber sTimecode sKeyframe sInvisible sDiscardable sLacing].
  split; [reflexivity|]. split; [reflexivity|].
  split; [apply int16_range|].
  split; [apply (flag_bit flags 7); lia|].
  split; [apply (flag_bit flags 3); lia|].
  split; [apply (flag_bit flags 0); lia|].
  assert (Hl : Z.land (Z.shiftr (u8 flags) 4) 3 = (u8 flags / 16) mod 4).
  { rewrite Z.shiftr_div_pow2 by lia. change 3 with (Z.ones 2).
    rewrite Z.land_ones by lia. reflexivity. }
  rewrite Hl. split; [reflexivity|].
  pose proof (Z.mod_pos_bound (u8 flags / 16) 4). lia.
Qed.

(** X7 -- [AsKeyBlock] on a SimpleBlock, case by case.  An element whose payload
    cannot be read, or whose track number is not a varint, gives that
    error.  A payload with fewer than three bytes after the track number
    gives no error: the decoder panics on it.  Otherwise the answer is the
    track number and bit 0x80 of the third byte after it. *)
Theorem AsKeyBlock_SimpleBlock (el : Elem) :
  Name el = "SimpleBlock"%string ->
  (forall e, Bytes el = Err e -> AsKeyBlock el = Err e) /\
  (forall data e,
     Bytes el = Ok data -> varint.Parse data = Err e ->
     AsKeyBlock el = Err e) /\
  (forall data v t k,
     Bytes el = Ok data -> varint.Parse data = Ok v ->
     varint.Uint64 v = Ok t -> varint.Size v = Ok (Z.of_nat k) ->
     (length data < k + 3)%nat -> AsKeyBlock el = Panic) /\
  (forall data v t k flags,
     Bytes el = Ok data -> varint.Parse data = Ok v ->
     varint.Uint64 v = Ok t -> varint.Size v = Ok (Z.of_nat k) ->
     data !! (k + 2)%nat = Some flags ->
     AsKeyBlock el = Ok (t, Z.testbit (u8 flags) 7)).
Proof.
  intros Hn. unfold AsKeyBlock, NewSimpleBlock. rewrite Hn.
  cbn [String.eqb Ascii.eqb Bool.eqb andb]. repeat split.
  - intros e ->. reflexivity.
  - intros data e -> HP. cbn [rbind]. unfold parseAsSimpleBlock.
    rewrite HP. reflexivity.
  - intros data v t k -> HP HU HS Hlen. cbn [rbind].
    unfold parseAsSimpleBlock. rewrite HP. cbn [rbind]. rewrite HU, HS.
    cbn [rbind].
    destruct (le_lt_dec k (length data)) as [Hk|Hk].
    + rewrite (slice_from_nat data k Hk).
      assert (Hd : (length (drop k data) < 3)%nat)
        by (rewrite length_drop; lia).
      destruct (drop k data) as [|a [|b [|c l]]]; cbn in Hd; try lia;
        cbn [rbind index lookup list_lookup]; reflexivity.
    + unfold slice_from.
      destruct (Z.ltb_spec (Z.of_nat (length data)) (Z.of_nat k)); [|lia].
      now rewrite orb_true_r.
  - intros data v t k flags Hb HP HU HS Hf.
    destruct (drop_third data k flags Hf) as (d0 & d1 & rest & Hd).
    rewrite Hb. cbn [rbind].
    rewrite (parseAsSimpleBlock_Ok data v t k d0 d1 flags rest HP HU HS Hd).
    cbn [sTrackNumber sKeyframe]. do 2 f_equal.
    apply (flag_bit flags 7). lia.
Qed.

(** X8 -- Which byte decides for a Block without lacing: the sixth after the
    track number, that is the third byte of the frame.  A Block too short
    to have that byte makes the decoder panic. *)
Theorem parseAsBlock_no_lacing (data : list byte) (v : varint.VarInt)
    (t : Z) (k : nat) (flags : byte) :
  varint.Parse data = Ok v -> varint.Uint64 v = Ok t ->
  varint.Size v = Ok (Z.of_nat k) ->
  data !! (k + 2)%nat = Some flags ->
  Z.land (Z.shiftr (u8 flags) 4) 3 = 0 ->
  (forall x, data !! (k + 5)%nat = Some x ->
     exists b, parseAsBlock data = Ok b /\ TrackNumber b = t /\
               Keyframe b = negb (Z.testbit (u8 x) 0)) /\
  (data !! (k + 5)%nat = None -> parseAsBlock data = Panic).
Proof.
  intros HP HU HS Hf Hl.
  assert (Hlen : (k + 2 < length data)%nat)
    by (apply lookup_lt_is_Some; eauto).
  destruct (drop_third data k flags Hf) as (d0 & d1 & rest & Hd).
  assert (H5 : data !! (k + 5)%nat = rest !! 2%nat).
  { replace (k + 5)%nat with (k + 3 + 2)%nat by lia.
    rewrite <- !lookup_drop. rewrite <- drop_drop, Hd. reflexivity. }
  unfold parseAsBlock. rewrite HP. cbn [rbind]. rewrite HU, HS. cbn [rbind].
  rewrite (slice_from_nat data k) by lia. rewrite Hd.
  cbn [rbind index lookup list_lookup]. rewrite slice_from_2.
  cbn [rbind index lookup list_lookup]. rewrite slice_from_1.
  rewrite Hl. cbn [Z.gtb Z.compare rbind]. rewrite H5. unfold index.
  split.
  - intros x ->. cbn [rbind]. eexists. split; [reflexivity|].
    cbn [TrackNumber Keyframe]. split; [reflexivity|].
    change (Z.land (u8 x) 1) with (Z.land (u8 x) (Z.ones 1)).
    rewrite Z.land_ones by lia. change (2 ^ 1) with 2.
    rewrite Zmod_odd, Z.bit0_odd. now destruct (Z.odd (u8 x)).
  - intros ->. reflexivity.
Qed.

End DecoderMore.

(** An instance of [parseAsSimpleBlock_fields]: a SimpleBlock of track 1
    with the timecode bytes 01 02 and the flags 0x80. *)
Lemma parseAsSimpleBlock_fields_witness :
  exists s,
    webm.parseAsSimpleBlock (V := ebml_varint.pkg) [x81; x01; x02; x80] = Ok s /\
    webm.sTrackNumber s = 1 /\
    webm.sTimecode s = int16 (256 * u8 x01 + u8 x02) /\
    -32768 <= webm.sTimecode s <= 32767 /\
    webm.sKeyframe s = Z.testbit (u8 x80) 7 /\
    webm.sInvisible s = Z.testbit (u8 x80) 3 /\
    webm.sDiscardable s = Z.testbit (u8 x80) 0 /\
    webm.sLacing s = (u8 x80 / 16) mod 4 /\
    0 <= webm.sLacing s <= 3.
Proof.
  apply (parseAsSimpleBlock_fields (V := ebml_varint.pkg)
           [x81; x01; x02; x80] [x81] 1 1 x01 x02 x80 []);
    reflexivity.
Defined.

(** An instance of [AsKeyBlock_SimpleBlock]: the keyframe [examples.key1]. *)
Lemma AsKeyBlock_SimpleBlock_witness :
  webm.AsKeyBlock (V := ebml_varint.pkg) examples.key1
  = Ok (1, Z.testbit (u8 x80) 7).
Proof.
  apply (proj2 (proj2 (proj2
           (AsKeyBlock_SimpleBlock (V := ebml_varint.pkg) examples.key1
              eq_refl)))
           [x81; x00; x00; x80] [x81] 1 1%nat x80); reflexivity.
Defined.

(** An instance of [parseAsBlock_no_lacing]: [scenarios.block_payload],
    whose frame has bit 0 of its third byte clear. *)
Lemma parseAsBlock_no_lacing_witness :
  exists b,
    webm.parseAsBlock (V := ebml_varint.pkg) scenarios.block_payload = Ok b /\
    webm.TrackNumber b = 1 /\
    webm.Keyframe b = negb (Z.testbit (u8 x00) 0).
Proof.
  apply (proj1 (parseAsBlock_no_lacing (V := ebml_varint.pkg)
                  scenarios.block_payload [x81] 1 1 x00
                  eq_refl eq_refl eq_refl eq_refl eq_refl)).
  reflexivity.
Defined.

(** ** The multiplexer, call by call *)

Section PubSubMore.
Import pubsub.


(** X10 -- Subscribing and unsubscribing.  [RemSubCh] on a name the multiplexer
    does not have changes nothing (it makes no channel, where [AddSubCh]
    does).  On a name it has, an [AddSubCh] that timed out changes
    nothing, and an accepted [AddSubCh] of a queue that was not
    subscribed, followed by an accepted [RemSubCh] of it, gives back the
    multiplexer as it was. *)
Theorem AddSubCh_RemSubCh (channel : string) (ch : nat) (pm : PubSubMux) :
  (mux pm !! channel = None ->
   forall accepted, RemSubCh channel ch accepted pm = pm) /\
  (forall ps, mux pm !! channel = Some ps ->
     AddSubCh channel ch false pm = pm /\
     (ch ∉ dsts ps ->
      RemSubCh channel ch true (AddSubCh channel ch true pm) = pm)) /\
  (mux pm !! channel = None ->
   exists ps, mux (AddSubCh channel ch true pm) !! channel = Some ps /\
              dsts ps = {[ ch ]} /\ srcGotten ps = false).
Proof.
  unfold RemSubCh, AddSubCh. split; [|split].
  - intros ->. reflexivity.
  - intros ps E. rewrite E. split; [reflexivity|]. intros Hch.
    cbn [mux set_mux]. rewrite lookup_insert_eq.
    destruct pm as [m n cl sn], ps as [a0 r0 s0 d0 g0].
    unfold set_mux, set_dsts. cbn in *.
    rewrite insert_insert_eq.
    assert (Hd : (d0 ∪ {[ch]}) ∖ {[ch]} = d0).
    { apply set_eq. intros x.
      rewrite elem_of_difference, elem_of_union, elem_of_singleton.
      split; [tauto|]. intros Hx. split; [now left|]. now intros ->. }
    rewrite Hd. now rewrite insert_id.
  - intros ->. cbn. rewrite lookup_insert_eq. eexists. split; [reflexivity|].
    cbn. split; [apply union_empty_l_L|reflexivity].
Qed.

(** X11 -- The calls on one name leave every other name alone. *)
Theorem other_channels_untouched (c c' : string) (ch : nat) (accepted : bool)
    (pm : PubSubMux) :
  c <> c' ->
  mux (snd (GetPubCh c pm)) !! c' = mux pm !! c' /\
  mux (snd (ClosePubCh c pm)) !! c' = mux pm !! c' /\
  mux (AddSubCh c ch accepted pm) !! c' = mux pm !! c' /\
  mux (RemSubCh c ch accepted pm) !! c' = mux pm !! c'.
Proof.
  intros Hne. unfold GetPubCh, ClosePubCh, AddSubCh, RemSubCh.
  destruct (mux pm !! c) eqn:E; destruct accepted; cbn;
    repeat split; simplify_map_eq; reflexivity.
Qed.

(** X12 -- A channel can be subscribed to before it is published to, and the
    other way round: on a name the multiplexer does not have, an accepted
    [AddSubCh] followed by [GetPubCh] and [GetPubCh] followed by an
    accepted [AddSubCh] leave the same entry under the name -- one
    [pubSub], marked as gotten, with the queue subscribed -- and in both
    orders [GetPubCh] hands out the same publishing channel and reports
    no earlier publisher. *)
Theorem subscribe_publish_commute (channel : string) (ch : nat)
    (pm : PubSubMux) :
  mux pm !! channel = None ->
  fst (GetPubCh channel (AddSubCh channel ch true pm))
    = (S (S (chans pm)), false) /\
  fst (GetPubCh channel pm) = (S (S (chans pm)), false) /\
  mux (snd (GetPubCh channel (AddSubCh channel ch true pm))) !! channel
    = mux (AddSubCh channel ch true (snd (GetPubCh channel pm))) !! channel /\
  exists ps,
    mux (snd (GetPubCh channel (AddSubCh channel ch true pm))) !! channel
      = Some ps /\
    src ps = S (S (chans pm)) /\ srcGotten ps = true /\ ch ∈ dsts ps.
Proof.
  intros E. unfold GetPubCh, AddSubCh. rewrite E. cbn.
  rewrite !lookup_insert_eq. cbn. rewrite !lookup_insert_eq. cbn.
  repeat split.
  eexists. split; [reflexivity|]. cbn. repeat split. set_solver.
Qed.

End PubSubMore.


(** An instance of [AddSubCh_RemSubCh]: subscribing to a published channel
    and unsubscribing again. *)
Lemma AddSubCh_RemSubCh_witness :
  pubsub.RemSubCh "/stream/a" 7 true
    (pubsub.AddSubCh "/stream/a" 7 true
       (snd (pubsub.GetPubCh "/stream/a" pubsub.NewPubSubMux)))
  = snd (pubsub.GetPubCh "/stream/a" pubsub.NewPubSubMux).
Proof.
  apply (proj2 (proj1 (proj2
           (AddSubCh_RemSubCh "/stream/a" 7
              (snd (pubsub.GetPubCh "/stream/a" pubsub.NewPubSubMux))))
           {| pubsub.addDst := 0; pubsub.remDst := 1; pubsub.src := 2;
              pubsub.dsts := ∅; pubsub.srcGotten := true |}
           ltac:(vm_compute; reflexivity))).
  simpl. apply not_elem_of_empty.
Defined.

(** An instance of [other_channels_untouched]: closing [/stream/b] leaves
    [/stream/a] as it was. *)
Lemma other_channels_untouched_witness :
  pubsub.mux (snd (pubsub.ClosePubCh "/stream/b" scenarios.live_mux))
    !! "/stream/a"%string
  = pubsub.mux scenarios.live_mux !! "/stream/a"%string.
Proof.
  apply (proj1 (proj2
           (other_channels_untouched "/stream/b" "/stream/a" 0 true
              scenarios.live_mux ltac:(discriminate)))).
Defined.

(** An instance of [subscribe_publish_commute]: a subscriber that comes
    before the publisher, on a new multiplexer. *)
Lemma subscribe_publish_commute_witness :
  fst (pubsub.GetPubCh "/stream/a"
         (pubsub.AddSubCh "/stream/a" 7 true pubsub.NewPubSubMux))
  = (2%nat, false).
Proof.
  apply (proj1 (subscribe_publish_commute "/stream/a" 7 pubsub.NewPubSubMux
                  ltac:(vm_compute; reflexivity))).
Defined.

(** ** The application, request by request *)

Section MainMore.
Context {V : varint.Pkg} {B : bufio.Pkg}.
Import http httppubsub.

(** X13 -- The registry of keepers: the first writer wins.  On a free name
    [addKeeper] succeeds and [getKeeper] then finds the keeper; a second
    [addKeeper] on the name fails and changes nothing; [remKeeper] frees
    the name; other names are not affected. *)
Theorem keeper_registry (channel : string) (k k2 : nat) (g : main.Globals) :
  main.getKeeper channel g = None ->
  fst (main.addKeeper channel k g) = true /\
  main.getKeeper channel (snd (main.addKeeper channel k g)) = Some k /\
  main.addKeeper channel k2 (snd (main.addKeeper channel k g))
    = (false, snd (main.addKeeper channel k g)) /\
  main.getKeeper channel
    (main.remKeeper channel (snd (main.addKeeper channel k g))) = None /\
  (forall c, c <> channel ->
     main.getKeeper c (snd (main.addKeeper channel k g)) = main.getKeeper c g /\
     main.getKeeper c (main.remKeeper channel g) = main.getKeeper c g).
Proof.
  unfold main.getKeeper, main.addKeeper, main.remKeeper. intros E. rewrite E.
  cbn [fst snd main.keepers main.heap]. rewrite lookup_insert_eq.
  repeat split.
  - apply lookup_delete_eq.
  - now apply lookup_insert_ne.
  - now apply lookup_delete_ne.
Qed.

Lemma status_of_calls (w : ResponseWriter) (code : Z) (cs : list call) :
  calls w = CallWriteHeader code :: cs -> status w = code.
Proof. unfold status. now intros ->. Qed.

(** X14 -- A POST on a name that has a keeper already is answered 400 with the
    body "has a writer already"; the keeper registered under the name
    stays, and the bus is not touched. *)
Theorem POST_writer_exists (fuel : nat) (a r : bool)
    (inbox : list (list byte)) (req : Request) (wd : World main.Globals)
    (wk : webmkeeper.WebmKeeper) (k0 : nat) :
  Method req = "POST"%string ->
  webmkeeper.New (Body req) = Ok wk ->
  main.keepers (glob wd) !! URL_Path req = Some k0 ->
  calls (resp wd) = [] ->
  exists wd',
    ServeHTTP main.app fuel a r inbox req wd = Some (Ok tt, wd') /\
    calls (resp wd') =
      [CallWriteHeader 400;
       CallWrite (bytes_of_string "has a writer already")] /\
    status (resp wd') = 400 /\
    main.keepers (glob wd') = main.keepers (glob wd) /\
    pmux wd' = pmux wd.
Proof.
  intros Hm HN Hk Hc.
  unfold ServeHTTP. cbn [main.app OnOpen]. unfold main.OnOpen.
  rewrite Hm. cbn [String.eqb Ascii.eqb Bool.eqb andb]. rewrite HN.
  unfold main.alloc, main.addKeeper. cbn [main.keepers main.heap]. rewrite Hk.
  cbn [negb bail Z.eqb resp glob pmux]. unfold Write, WriteHeader.
  cbn [calls healthy]. rewrite Hc.
  destruct (healthy (resp wd)); cbn [resp glob pmux calls main.app main.keepers];
    (eexists; split; [reflexivity|]); cbn [resp glob pmux calls main.keepers];
    repeat split.
Qed.

(** X15 -- A POST whose stream does not get as far as a Cluster -- the source
    ends or fails first -- is answered 400 with the text of the error as
    body; neither the keeper registry nor the bus is touched. *)
Theorem POST_header_error (fuel : nat) (a r : bool)
    (inbox : list (list byte)) (req : Request) (wd : World main.Globals)
    (e : goerr) :
  Method req = "POST"%string ->
  webmkeeper.New (Body req) = Err e ->
  calls (resp wd) = [] ->
  exists wd',
    ServeHTTP main.app fuel a r inbox req wd = Some (Ok tt, wd') /\
    calls (resp wd') =
      [CallWriteHeader 400; CallWrite (bytes_of_string (Error e))] /\
    status (resp wd') = 400 /\
    glob wd' = glob wd /\ pmux wd' = pmux wd.
Proof.
  intros Hm HN Hc.
  unfold ServeHTTP. cbn [main.app OnOpen]. unfold main.OnOpen.
  rewrite Hm. cbn [String.eqb Ascii.eqb Bool.eqb andb]. rewrite HN.
  cbn [negb bail Z.eqb resp glob pmux]. unfold Write, WriteHeader.
  cbn [calls healthy]. rewrite Hc.
  destruct (healthy (resp wd)); cbn [resp glob pmux calls main.app];
    (eexists; split; [reflexivity|]); cbn [resp glob pmux calls];
    repeat split.
Qed.


End MainMore.

(** An instance of [keeper_registry]: a second [addKeeper] on [/stream/a]. *)
Lemma keeper_registry_witness :
  main.addKeeper "/stream/a" 1
    (snd (main.addKeeper "/stream/a" 0 scenarios.no_keepers))
  = (false, snd (main.addKeeper "/stream/a" 0 scenarios.no_keepers)).
Proof.
  apply (proj1 (proj2 (proj2
           (keeper_registry "/stream/a" 0 1 scenarios.no_keepers
              ltac:(vm_compute; reflexivity))))).
Defined.

(** An instance of [POST_writer_exists]: a POST of [examples.stream] on
    [scenarios.busy_world]. *)
Lemma POST_writer_exists_witness :
  exists wd',
    httppubsub.ServeHTTP (B := unbuffered) (main.app (V := ebml_varint.pkg))
      0 true true [] scenarios.post_stream scenarios.busy_world
    = Some (Ok tt, wd') /\
    http.calls (httppubsub.resp wd') =
      [http.CallWriteHeader 400;
       http.CallWrite (httppubsub.bytes_of_string "has a writer already")] /\
    http.status (httppubsub.resp wd') = 400 /\
    main.keepers (httppubsub.glob wd') =
      main.keepers (httppubsub.glob scenarios.busy_world) /\
    httppubsub.pmux wd' = httppubsub.pmux scenarios.busy_world.
Proof.
  apply (POST_writer_exists (V := ebml_varint.pkg) (B := unbuffered)
           0 true true [] scenarios.post_stream scenarios.busy_world
           examples.wk0 0 eq_refl eq_refl
           ltac:(vm_compute; reflexivity) eq_refl).
Defined.

(** An instance of [POST_header_error]: a POST with an empty body on a
    server that has just started. *)
Lemma POST_header_error_witness :
  exists wd',
    httppubsub.ServeHTTP (B := unbuffered) (main.app (V := ebml_varint.pkg))
      0 true true [] scenarios.post_empty examples.fresh_world
    = Some (Ok tt, wd') /\
    http.calls (httppubsub.resp wd') =
      [http.CallWriteHeader 400;
       http.CallWrite (httppubsub.bytes_of_string (Error io_EOF))] /\
    http.status (httppubsub.resp wd') = 400 /\
    httppubsub.glob wd' = httppubsub.glob examples.fresh_world /\
    httppubsub.pmux wd' = httppubsub.pmux examples.fresh_world.
Proof.
  apply (POST_header_error (V := ebml_varint.pkg) (B := unbuffered)
           0 true true [] scenarios.post_empty examples.fresh_world
           io_EOF eq_refl eq_refl eq_refl).
Defined.


(** ** The publishing loop *)

Section PublishLoop.
Context {B : bufio.Pkg} {St G : Type} (app : httppubsub.HTTPPubSubApp St G).
Import http httppubsub.

Lemma send_keeps (ch : nat) (b : list byte) (pm : pubsub.PubSubMux) :
  pubsub.mux (snd (pubsub.send ch b pm)) = pubsub.mux pm /\
  pubsub.closed (snd (pubsub.send ch b pm)) = pubsub.closed pm /\
  pubsub.chans (snd (pubsub.send ch b pm)) = pubsub.chans pm.
Proof. unfold pubsub.send. destruct (decide _); repeat split. Qed.

Lemma GetPubCh_other (c c' : string) (pm : pubsub.PubSubMux) :
  c <> c' ->
  pubsub.mux (snd (pubsub.GetPubCh c pm)) !! c' = pubsub.mux pm !! c'.
Proof.
  intros Hne. unfold pubsub.GetPubCh.
  destruct (pubsub.mux pm !! c) eqn:E; cbn; simplify_map_eq; reflexivity.
Qed.

Lemma GetPubCh_present (c : string) (pm : pubsub.PubSubMux) :
  is_Some (pubsub.mux (snd (pubsub.GetPubCh c pm)) !! c).
Proof.
  unfold pubsub.GetPubCh.
  destruct (pubsub.mux pm !! c) eqn:E; cbn; rewrite lookup_insert_eq; eauto.
Qed.

Lemma publish_loop_mux (fuel : nat) (st : St) (req : Request) (ch : nat)
    (wd wd' : World G) (res : result unit) :
  publish_loop app fuel st req ch wd = Some (res, wd') ->
  pubsub.mux (pmux wd') = pubsub.mux (pmux wd).
Proof.
  revert wd. induction fuel as [|fuel IH]; intros wd; [discriminate|].
  cbn [publish_loop].
  destruct (GetNext app st req (glob wd)) as [[[[b code] ret]|e|] g];
    cbn [resp glob pmux]; [|now intros [= _ <-]..].
  pose proof (send_keeps ch b (pmux wd)) as (Hs & _).
  destruct (0 <? Z.of_nat (length b));
    [destruct (pubsub.send ch b (pmux wd)) as [[[]|e|] pm] eqn:Es;
     cbn [snd] in Hs|];
    cbn [resp glob pmux]; try (now intros [= _ <-]).
  - destruct (bail (resp wd) code ret) as [[|] w]; cbn [resp glob pmux].
    + now intros [= _ <-].
    + intros H. apply IH in H. cbn [pmux] in H. congruence.
  - destruct (bail (resp wd) code ret) as [[|] w]; cbn [resp glob pmux].
    + now intros [= _ <-].
    + intros H. apply IH in H. exact H.
Qed.


End PublishLoop.


(** ** A publisher, from its first byte to its last *)

Section MainRelay.
Context {V : varint.Pkg} {B : bufio.Pkg}.
Import http httppubsub.

Lemma GetPubCh_keeps (c : string) (pm : pubsub.PubSubMux) :
  pubsub.closed (snd (pubsub.GetPubCh c pm)) = pubsub.closed pm /\
  pubsub.sent (snd (pubsub.GetPubCh c pm)) = pubsub.sent pm.
Proof.
  unfold pubsub.GetPubCh. destruct (pubsub.mux pm !! c); split; reflexivity.
Qed.

Lemma GetPubCh_entry (c : string) (pm : pubsub.PubSubMux) :
  exists ps,
    pubsub.mux (snd (pubsub.GetPubCh c pm)) !! c = Some ps /\
    pubsub.src ps = fst (fst (pubsub.GetPubCh c pm)).
Proof.
  unfold pubsub.GetPubCh.
  destruct (pubsub.mux pm !! c) as [ps|] eqn:E; cbn;
    rewrite lookup_insert_eq; eexists; split; reflexivity.
Qed.

Lemma published_cons (ch : nat) (b : list byte) (outs : list (list byte)) :
  flow.published ch (b :: outs) =
  (if 0 <? Z.of_nat (length b) then [(ch, b)] else []) ++
  flow.published ch outs.
Proof.
  unfold flow.published. cbn [List.filter].
  destruct (0 <? Z.of_nat (length b)); reflexivity.
Qed.

Lemma main_publish_loop (m : nat) :
  forall (fuel : nat) (st : main.connState) (req : Request) (ch k : nat)
         (wd : World main.Globals) (wk wk1 wk2 : webmkeeper.WebmKeeper)
         (outs : list (list byte)) (e : goerr),
    main.keeper st = Some k ->
    main.heap (glob wd) !! k = Some wk ->
    flow.Next_run m wk = Some (outs, wk1) ->
    webmkeeper.Next wk1 = (Err e, wk2) ->
    ch ∉ pubsub.closed (pmux wd) ->
    (m < fuel)%nat ->
    exists wd',
      publish_loop main.app fuel st req ch wd = Some (Ok tt, wd') /\
      pubsub.sent (pmux wd') = pubsub.sent (pmux wd) ++ flow.published ch outs /\
      pubsub.mux (pmux wd') = pubsub.mux (pmux wd) /\
      pubsub.closed (pmux wd') = pubsub.closed (pmux wd) /\
      resp wd' = snd (bail (resp wd) 500 (Error e)) /\
      main.keepers (glob wd') = delete (main.channel st) (main.keepers (glob wd)) /\
      main.heap (glob wd') !! k = Some wk2.
Proof.
  induction m as [|m IH]; intros fuel st req ch k wd wk wk1 wk2 outs e
    Hk Hh Hrun HN Hch Hf;
    (destruct fuel as [|fuel]; [lia|]); cbn [flow.Next_run] in Hrun.
  - injection Hrun as <- <-.
    cbn [publish_loop main.app GetNext]. unfold main.GetNext.
    rewrite Hk, Hh, HN. cbn [length Z.of_nat Z.ltb Z.compare resp glob pmux].
    destruct (bail (resp wd) 500 (Error e)) as [stop w] eqn:Eb.
    assert (Hstop : stop = true).
    { unfold bail in Eb. cbn [Z.eqb] in Eb.
      destruct (Write _ _) in Eb. now injection Eb as <- _. }
    subst stop. eexists. split; [reflexivity|].
    cbn [resp glob pmux main.remKeeper main.keepers main.heap].
    unfold flow.published. cbn [List.filter map]. rewrite app_nil_r.
    rewrite lookup_insert_eq. repeat split.
  - destruct (webmkeeper.Next wk) as [[b| |] wk'] eqn:EN; try discriminate.
    destruct (flow.Next_run m wk') as [[outs1 wk1']|] eqn:ER; [|discriminate].
    injection Hrun as <- ->.
    cbn [publish_loop main.app GetNext]. unfold main.GetNext.
    rewrite Hk, Hh, EN. cbn [resp glob pmux].
    set (g1 := {| main.heap := <[k:=wk']> (main.heap (glob wd));
                  main.keepers := main.keepers (glob wd) |}).
    rewrite published_cons.
    destruct (0 <? Z.of_nat (length b)) eqn:El.
    + unfold pubsub.send. destruct (decide (ch ∈ pubsub.closed (pmux wd)));
        [contradiction|].
      cbn [bail Z.eqb resp glob pmux].
      destruct (IH fuel st req ch k
                  (Build_World (resp wd) g1
                     {| pubsub.mux := pubsub.mux (pmux wd);
                        pubsub.chans := pubsub.chans (pmux wd);
                        pubsub.closed := pubsub.closed (pmux wd);
                        pubsub.sent := pubsub.sent (pmux wd) ++ [(ch, b)] |})
                  wk' wk1 wk2 outs1 e Hk)
        as (wd' & Hl & Hs & Hm & Hc & Hr & Hks & Hhp);
        [subst g1; cbn; apply lookup_insert_eq|exact ER|exact HN
        |exact Hch|lia|].
      exists wd'. split; [exact Hl|].
      cbn [pmux pubsub.sent pubsub.mux pubsub.closed resp glob] in *.
      rewrite Hs, <- app_assoc. repeat split; assumption.
    + cbn [bail Z.eqb resp glob pmux].
      destruct (IH fuel st req ch k (Build_World (resp wd) g1 (pmux wd))
                  wk' wk1 wk2 outs1 e Hk)
        as (wd' & Hl & Hs & Hm & Hc & Hr & Hks & Hhp);
        [subst g1; cbn; apply lookup_insert_eq|exact ER|exact HN
        |exact Hch|lia|].
      exists wd'. split; [exact Hl|].
      cbn [pmux resp glob app] in *. repeat split; assumption.
Qed.


End MainRelay.


(** ** The default application *)

Section DefaultApp.
Context {B : bufio.Pkg} {R : Type} {Rd : defaults.Reader R}.
Import http httppubsub defaults.


End DefaultApp.


(** ** The goroutine of a channel *)

Section Spin.
Import spinner.

Lemma try_send_lookup (msg : list byte) (a : nat) (hp hp1 : gmap nat chan) :
  try_send msg a hp = Ok hp1 ->
  forall ch, hp1 !! ch = if decide (ch = a) then push msg <$> hp !! a
                         else hp !! ch.
Proof.
  unfold try_send. intros H ch.
  destruct (hp !! a) as [c|] eqn:E.
  - destruct (closed c); [discriminate|]. injection H as <-.
    destruct (decide (ch = a)) as [->|Hne].
    + now rewrite lookup_insert_eq.
    + now rewrite lookup_insert_ne by congruence.
  - injection H as <-. destruct (decide (ch = a)) as [->|]; [|reflexivity].
    now rewrite E.
Qed.

Lemma close_chan_lookup (a : nat) (hp hp1 : gmap nat chan) :
  close_chan a hp = Ok hp1 ->
  forall ch, hp1 !! ch = if decide (ch = a) then shut <$> hp !! a
                         else hp !! ch.
Proof.
  unfold close_chan. intros H ch.
  destruct (hp !! a) as [c|] eqn:E; [|discriminate].
  destruct (closed c); [discriminate|]. injection H as <-.
  destruct (decide (ch = a)) as [->|Hne].
  - now rewrite lookup_insert_eq.
  - now rewrite lookup_insert_ne by congruence.
Qed.

(** A loop over distinct channels whose body acts on its channel alone
    acts on each channel of the range once. *)
Lemma for_range_lookup (body : nat -> gmap nat chan -> result (gmap nat chan))
    (f : chan -> chan) (l : list nat) :
  (forall a hp hp1, body a hp = Ok hp1 ->
     forall ch, hp1 !! ch = if decide (ch = a) then f <$> hp !! a
                            else hp !! ch) ->
  forall hp hp' : gmap nat chan,
    NoDup l ->
    for_range l body hp = Ok hp' ->
    forall ch, hp' !! ch = if decide (ch ∈ l) then f <$> hp !! ch
                           else hp !! ch.
Proof.
  intros Hbody. induction l as [|a l IH]; intros hp hp' Hnd; cbn [for_range].
  - intros [= <-] ch.
    destruct (decide (ch ∈ [])) as [Hin|]; [|reflexivity].
    now apply not_elem_of_nil in Hin.
  - apply NoDup_cons in Hnd as [Ha Hnd].
    destruct (body a hp) as [hp1| |] eqn:Eb; try discriminate.
    intros Hr ch. rewrite (IH hp1 hp' Hnd Hr ch), !(Hbody a hp hp1 Eb).
    destruct (decide (ch = a)) as [->|Hne].
    + destruct (decide (a ∈ l)); [contradiction|].
      destruct (decide (a ∈ a :: l)) as [|Hn]; [reflexivity|].
      exfalso. apply Hn, list_elem_of_here.
    + destruct (decide (ch ∈ l)) as [Hin|Hnin];
        destruct (decide (ch ∈ a :: l)) as [Hin'|Hnin']; try reflexivity.
      * exfalso. apply Hnin'. now apply list_elem_of_further.
      * apply elem_of_cons in Hin' as [?|?]; contradiction.
Qed.

Lemma for_range_try_send_Ok (msg : list byte) (l : list nat) :
  forall hp : gmap nat chan,
    (forall ch c, ch ∈ l -> hp !! ch = Some c -> closed c = false) ->
    exists hp', for_range l (try_send msg) hp = Ok hp'.
Proof.
  induction l as [|a l IH]; intros hp Hopen; cbn [for_range]; [eauto|].
  assert (Hs : exists hp1, try_send msg a hp = Ok hp1).
  { unfold try_send. destruct (hp !! a) as [c|] eqn:E; [|eauto].
    rewrite (Hopen a c) by (try apply list_elem_of_here; assumption).
    eauto. }
  destruct Hs as [hp1 Hs]. rewrite Hs. apply IH.
  intros ch c Hin. rewrite (try_send_lookup msg a hp hp1 Hs).
  destruct (decide (ch = a)) as [->|_].
  - destruct (hp !! a) as [c0|] eqn:E; [|discriminate].
    cbn. intros [= <-]. unfold push.
    pose proof (Hopen a c0 (list_elem_of_here _ _) E) as Hc.
    destruct (_ <? _)%nat; [cbn|]; exact Hc.
  - apply Hopen. now apply list_elem_of_further.
Qed.

Lemma for_range_try_send_Panic (msg : list byte) (l : list nat) :
  forall (hp : gmap nat chan) (ch : nat) (c : chan),
    ch ∈ l -> hp !! ch = Some c -> closed c = true ->
    for_range l (try_send msg) hp = Panic.
Proof.
  induction l as [|a l IH]; intros hp ch c Hin Hc Hcl; cbn [for_range].
  - now apply not_elem_of_nil in Hin.
  - destruct (try_send msg a hp) as [hp1|e|] eqn:Es; [| |reflexivity].
    + pose proof (try_send_lookup msg a hp hp1 Es ch) as Hl.
      destruct (decide (ch = a)) as [->|Hne].
      * unfold try_send in Es. rewrite Hc, Hcl in Es. discriminate.
      * apply elem_of_cons in Hin as [?|Hin]; [contradiction|].
        apply (IH hp1 ch c Hin); [now rewrite Hl|exact Hcl].
    + unfold try_send in Es. destruct (hp !! a) as [c0|]; [|discriminate].
      destruct (closed c0); discriminate.
Qed.

Lemma for_range_close_Ok (l : list nat) :
  forall hp : gmap nat chan,
    NoDup l ->
    (forall ch, ch ∈ l -> exists c, hp !! ch = Some c /\ closed c = false) ->
    exists hp', for_range l close_chan hp = Ok hp'.
Proof.
  induction l as [|a l IH]; intros hp Hnd Hopen; cbn [for_range]; [eauto|].
  apply NoDup_cons in Hnd as [Ha Hnd].
  destruct (Hopen a (list_elem_of_here _ _)) as (c & Hc & Hcl).
  assert (Hs : exists hp1, close_chan a hp = Ok hp1).
  { unfold close_chan. rewrite Hc, Hcl. eauto. }
  destruct Hs as [hp1 Hs]. rewrite Hs. apply (IH hp1 Hnd).
  intros ch Hin. rewrite (close_chan_lookup a hp hp1 Hs).
  destruct (decide (ch = a)) as [->|_]; [contradiction|].
  apply Hopen. now apply list_elem_of_further.
Qed.


(** X21 -- The end of a channel.  When [src] is closed and every subscribed
    channel is an open channel, the goroutine closes each of them, keeps
    what they buffer -- a subscriber can still take it -- touches no other
    channel, and ends: the events that follow are not met. *)
Theorem spin_closes_subscribers (evs : list event) (dsts : gset nat)
    (hp : gmap nat chan) :
  (forall ch, ch ∈ dsts -> exists c, hp !! ch = Some c /\ closed c = false) ->
  exists hp',
    spin (SrcClosed :: evs) dsts hp = Ok (None, hp') /\
    (forall ch c,
       ch ∈ dsts -> hp !! ch = Some c ->
       hp' !! ch = Some {| buf := buf c; cap := cap c; closed := true;
                           taken := taken c |}) /\
    (forall ch, ch ∉ dsts -> hp' !! ch = hp !! ch).
Proof.
  intros Hopen. cbn [spin].
  destruct (for_range_close_Ok (elements dsts) hp (NoDup_elements dsts))
    as [hp' Hr].
  { intros ch Hin. apply Hopen. now apply elem_of_elements. }
  rewrite Hr. exists hp'. split; [reflexivity|].
  pose proof (for_range_lookup close_chan shut (elements dsts)
                close_chan_lookup hp hp' (NoDup_elements dsts) Hr) as Hl.
  split.
  - intros ch c Hin Hc. rewrite Hl, Hc.
    destruct (decide (ch ∈ elements dsts)) as [_|Hn]; [reflexivity|].
    exfalso. apply Hn. now apply elem_of_elements.
  - intros ch Hn. rewrite Hl.
    destruct (decide (ch ∈ elements dsts)) as [Hin|_]; [|reflexivity].
    exfalso. apply Hn. now apply elem_of_elements.
Qed.

Lemma push_stream (msg : list byte) (c : chan) :
  cap (push msg c) = cap c /\
  (length (buf (push msg c)) <= Nat.max (length (buf c)) (cap c))%nat /\
  exists ms, taken (push msg c) ++ buf (push msg c)
             = taken c ++ buf c ++ ms /\ sublist ms [msg].
Proof.
  unfold push. destruct (_ <? _)%nat eqn:E; cbn.
  - apply Nat.ltb_lt in E. split; [reflexivity|].
    split; [rewrite length_app; cbn; lia|].
    exists [msg]. split; reflexivity.
  - split; [reflexivity|]. split; [lia|].
    exists []. rewrite app_nil_r. split; [reflexivity|apply sublist_nil_l].
Qed.

Lemma recv_lookup (a : nat) (hp : gmap nat chan) (ch : nat) (c : chan) :
  hp !! ch = Some c ->
  exists c', recv a hp !! ch = Some c' /\ cap c' = cap c /\
             (length (buf c') <= length (buf c))%nat /\
             taken c' ++ buf c' = taken c ++ buf c.
Proof.
  intros Hc. unfold recv.
  destruct (hp !! a) as [c0|] eqn:E; [|eauto 6].
  destruct (buf c0) as [|m b] eqn:Eb; [eauto 6|].
  destruct (decide (ch = a)) as [->|Hne].
  - rewrite lookup_insert_eq. rewrite E in Hc. injection Hc as ->.
    eexists. split; [reflexivity|]. cbn. rewrite Eb. cbn.
    split; [reflexivity|]. split; [lia|]. now rewrite <- app_assoc.
  - rewrite lookup_insert_ne by congruence. eauto 6.
Qed.

(** X22 -- What a subscriber sees of a run.  However the events interleave, what
    was taken from a channel followed by what it still buffers grows at
    its end only, and by messages of the publisher in the order they were
    published: messages can be missing, none is made up, doubled or out of
    order.  The buffer never grows beyond the capacity of the channel. *)
Theorem subscriber_sees_subsequence (evs : list event) :
  forall (dsts : gset nat) (hp hp' : gmap nat chan)
         (res : option (gset nat)) (ch : nat) (c : chan),
    spin evs dsts hp = Ok (res, hp') ->
    hp !! ch = Some c ->
    exists c' ms,
      hp' !! ch = Some c' /\
      taken c' ++ buf c' = taken c ++ buf c ++ ms /\
      sublist ms (published evs) /\
      cap c' = cap c /\
      (length (buf c') <= Nat.max (length (buf c)) (cap c))%nat.
Proof.
  induction evs as [|ev evs IH]; intros dsts hp hp' res ch c Hrun Hc.
  - injection Hrun as _ <-. exists c, []. rewrite app_nil_r.
    repeat split; [exact Hc|apply sublist_nil_l|lia].
  - destruct ev as [a|a|msg| |a]; cbn [spin] in Hrun.
    + apply (IH _ _ _ _ ch c Hrun Hc).
    + apply (IH _ _ _ _ ch c Hrun Hc).
    + destruct (for_range (elements dsts) (try_send msg) hp)
        as [hp1| |] eqn:Er; try discriminate.
      pose proof (for_range_lookup (try_send msg) (push msg) (elements dsts)
                    (try_send_lookup msg) hp hp1 (NoDup_elements dsts) Er ch)
        as Hl.
      rewrite Hc in Hl. cbn [published omap list_omap].
      destruct (decide (ch ∈ elements dsts)) as [_|_]; cbn in Hl.
      * destruct (IH _ _ _ _ ch _ Hrun Hl)
          as (c' & ms & Hc' & Hs & Hsub & Hcap & Hlen).
        destruct (push_stream msg c) as (Hcap1 & Hlen1 & ms1 & Hs1 & Hsub1).
        exists c', (ms1 ++ ms). split; [exact Hc'|].
        split; [rewrite Hs, app_assoc, Hs1, <- !app_assoc; reflexivity|].
        split; [apply (sublist_app ms1 [msg] ms _ Hsub1 Hsub)|].
        split; [congruence|]. rewrite Hcap1 in Hlen. lia.
      * destruct (IH _ _ _ _ ch _ Hrun Hl)
          as (c' & ms & Hc' & Hs & Hsub & Hcap & Hlen).
        exists c', ms. repeat split; try assumption.
        now apply sublist_cons.
    + destruct (for_range (elements dsts) close_chan hp)
        as [hp1| |] eqn:Er; try discriminate.
      injection Hrun as _ <-.
      pose proof (for_range_lookup close_chan shut (elements dsts)
                    close_chan_lookup hp hp1 (NoDup_elements dsts) Er ch)
        as Hl.
      rewrite Hc in Hl.
      destruct (decide (ch ∈ elements dsts)) as [_|_]; cbn in Hl;
        eexists _, []; rewrite app_nil_r;
        (split; [exact Hl|]); cbn;
        repeat split; try apply sublist_nil_l; lia.
    + destruct (recv_lookup a hp ch c Hc) as (c1 & Hc1 & Hcap1 & Hlen1 & Hs1).
      destruct (IH _ _ _ _ ch c1 Hrun Hc1)
        as (c' & ms & Hc' & Hs & Hsub & Hcap & Hlen).
      exists c', ms. split; [exact Hc'|].
      split; [rewrite Hs, app_assoc, Hs1, <- app_assoc; reflexivity|].
      split; [exact Hsub|]. split; [congruence|]. lia.
Qed.

End Spin.


(** An instance of [spin_closes_subscribers]: the queue is closed and
    keeps its message. *)
Lemma spin_closes_subscribers_witness :
  exists hp',
    spinner.spin [spinner.SrcClosed; spinner.Src [x02]]
      scenarios.only7 scenarios.one_queue = Ok (None, hp') /\
    hp' !! 7%nat =
      Some {| spinner.buf := [[x01]]; spinner.cap := 2;
              spinner.closed := true; spinner.taken := [] |}.
Proof.
  destruct (spin_closes_subscribers [spinner.Src [x02]]
              scenarios.only7 scenarios.one_queue)
    as (hp' & Hr & Hin & _).
  { intros ch Hin. apply elem_of_singleton in Hin. subst ch.
    exists scenarios.queue7. split; reflexivity. }
  exists hp'. split; [exact Hr|].
  apply (Hin 7%nat scenarios.queue7);
    [now apply elem_of_singleton|reflexivity].
Defined.

(** An instance of [subscriber_sees_subsequence]: three messages of which
    the second finds the queue full. *)
Lemma subscriber_sees_subsequence_witness :
  exists hp' c' ms,
    spinner.spin
      [spinner.Src [x02]; spinner.Src [x03]; spinner.Recv 7;
       spinner.Src [x04]]
      scenarios.only7 scenarios.one_queue = Ok (Some scenarios.only7, hp') /\
    hp' !! 7%nat = Some c' /\
    spinner.taken c' ++ spinner.buf c' = [[x01]] ++ ms /\
    sublist ms [[x02]; [x03]; [x04]].
Proof.
  pose (hp' := <[7%nat := {| spinner.buf := [[x02]; [x04]]; spinner.cap := 2;
                             spinner.closed := false;
                             spinner.taken := [[x01]] |}]>
                 (∅ : gmap nat spinner.chan)).
  assert (Hrun : spinner.spin
                   [spinner.Src [x02]; spinner.Src [x03]; spinner.Recv 7;
                    spinner.Src [x04]]
                   scenarios.only7 scenarios.one_queue
                 = Ok (Some scenarios.only7, hp'))
    by (vm_compute; reflexivity).
  destruct (subscriber_sees_subsequence _ _ _ _ _ 7%nat scenarios.queue7
              Hrun ltac:(vm_compute; reflexivity))
    as (c' & ms & Hc' & Hs & Hsub & _).
  exists hp', c', ms. split; [exact Hrun|]. split; [exact Hc'|].
  split; [exact Hs|exact Hsub].
Defined.
